(** * Accounts, addresses and the typed-transaction envelope of ethereumjs

    A shallow embedding of [packages/util/src/account.ts] and of
    [packages/tx/src/capabilities/eip2718.ts], with the properties the
    specification states about them.

    Layout: byte strings and the helpers of [bytes.ts], Keccak-256, RLP,
    the [Account] class, the address functions, the slim account body codec,
    the y-parity check; then the theorems. *)

From Stdlib Require Import ZArith NArith List String Ascii Bool Lia.
From Stdlib.Strings Require Import Byte.
From Stdlib Require Import DecimalString.
Import ListNotations.

Local Open Scope string_scope.
Local Open Scope list_scope.
Local Open Scope Z_scope.

(** ** Failures *)

(** The two ways the source throws: [EthereumJSErrorWithoutCode(msg)] and
    the plain [Error(msg)]. *)
Inductive error : Type :=
| EthereumJSErrorWithoutCode (msg : string)
| Error (msg : string).

Inductive result (A : Type) : Type :=
| Ok (a : A)
| Throw (e : error).
Arguments Ok {A} a.
Arguments Throw {A} e.

Definition bind {A B : Type} (r : result A) (k : A -> result B) : result B :=
  match r with
  | Ok a => k a
  | Throw e => Throw e
  end.

Declare Scope result_scope.
Delimit Scope result_scope with result.
Notation "x <- r ;; k" := (bind r (fun x => k))
  (at level 61, r at next level, right associativity) : result_scope.
Local Open Scope result_scope.

(** The error kinds of the specification, read off the thrown value. *)
Definition InvalidInput (e : error) : Prop :=
  exists msg, e = EthereumJSErrorWithoutCode msg.

Definition notLoadedError (field : string) : error :=
  Error (field ++ "=null not loaded").

Definition NotLoaded (e : error) : Prop :=
  exists field, e = notLoadedError field.

(** ** Byte strings *)

(** A [Uint8Array]. *)
Definition bytes : Type := list byte.

Definition byteZ (b : byte) : Z := Z.of_N (Byte.to_N b).

Definition byteOfZ (z : Z) : byte :=
  match Byte.of_N (Z.to_N (z mod 256)) with
  | Some b => b
  | None => x00
  end.

(** Big-endian digits of a positive number, most significant first; no digit
    for 0 (and none below 0, where the source has no value to encode). *)
Fixpoint bigEndianPos (fuel : nat) (z : Z) (acc : bytes) : bytes :=
  match fuel with
  | O => acc
  | S fuel' =>
      if z <=? 0 then acc
      else bigEndianPos fuel' (z / 256) (byteOfZ z :: acc)
  end.

Definition bigEndian (z : Z) : bytes :=
  bigEndianPos (S (Z.to_nat (Z.log2 z))) z [].

(** Modelled from the spec: [bytesToBigInt] of [bytes.ts], which is not among
    the sources: the byte string read as a big-endian unsigned integer, the
    empty string being 0. *)
Definition bytesToBigInt (b : bytes) : Z :=
  fold_left (fun acc x => acc * 256 + byteZ x) b 0.

(** [Number.MAX_SAFE_INTEGER]: the numbers of the source hold integers
    exactly up to here. *)
Definition MAX_SAFE_INTEGER : Z := 2 ^ 53 - 1.

(** Modelled from the spec: [bytesToInt] of [bytes.ts], which is not among the
    sources: the same reading, as a number.  A number is no safe integer
    above [MAX_SAFE_INTEGER], and the helper refuses what reads as more. *)
Definition bytesToInt (b : bytes) : result Z :=
  let res := bytesToBigInt b in
  if MAX_SAFE_INTEGER <? res
  then Throw (EthereumJSErrorWithoutCode "Number exceeds 53 bits")
  else Ok res.

(** Modelled from the spec: [bigIntToUnpaddedBytes] of [bytes.ts], which is not
    among the sources: the minimal big-endian form, 0 being the empty byte
    string. *)
Definition bigIntToUnpaddedBytes (z : Z) : bytes := bigEndian z.

(** Modelled from the spec: [intToUnpaddedBytes] of [bytes.ts], which is not
    among the sources: the minimal big-endian form of a number. *)
Definition intToUnpaddedBytes (z : Z) : bytes := bigEndian z.

Definition byte_eqb (a b : byte) : bool := Byte.eqb a b.

(** Modelled from the spec: [equalsBytes] of [bytes.ts], which is not among the
    sources: equal lengths and equal bytes. *)
Fixpoint equalsBytes (a b : bytes) : bool :=
  match a, b with
  | [], [] => true
  | x :: a', y :: b' => byte_eqb x y && equalsBytes a' b'
  | _, _ => false
  end.

(** Modelled from the spec: [concatBytes] of [bytes.ts], which is not among the
    sources. *)
Definition concatBytes (parts : list bytes) : bytes := List.concat parts.

(** [arr.subarray(-n)]: the last [n] bytes, the whole array when it is
    shorter. *)
Definition subarrayLast (n : nat) (b : bytes) : bytes :=
  skipn (List.length b - n) b.

(** ** Keccak-256

    The hash of [@noble/hashes/sha3], a dependency outside the repository,
    taken bit-exact: Keccak-f[1600] on 25 lanes of 64 bits in a sponge of rate
    136 bytes, with the original Keccak padding. *)
Module Keccak.

Local Open Scope N_scope.

Definition lane_mask : N := 0xFFFFFFFFFFFFFFFF.

Definition rotl (w : N) (n : N) : N :=
  N.land (N.lor (N.shiftl w n) (N.shiftr w (64 - n))) lane_mask.

Definition lane (st : list N) (i : nat) : N := nth i st 0.

Definition round_constants : list N :=
  [ 0x0000000000000001; 0x0000000000008082; 0x800000000000808A;
    0x8000000080008000; 0x000000000000808B; 0x0000000080000001;
    0x8000000080008081; 0x8000000000008009; 0x000000000000008A;
    0x0000000000000088; 0x0000000080008009; 0x000000008000000A;
    0x000000008000808B; 0x800000000000008B; 0x8000000000008089;
    0x8000000000008003; 0x8000000000008002; 0x8000000000000080;
    0x000000000000800A; 0x800000008000000A; 0x8000000080008081;
    0x8000000000008080; 0x0000000080000001; 0x8000000080008008 ].

(** Rotation offsets, lane [(x, y)] at index [x + 5 * y]. *)
Definition rotation_offsets : list N :=
  [ 0; 1; 62; 28; 27;
    36; 44; 6; 55; 20;
    3; 10; 43; 25; 39;
    41; 45; 15; 21; 8;
    18; 2; 61; 56; 14 ].

Definition indices : list nat := seq 0 25.

Definition theta (st : list N) : list N :=
  let c := map (fun x =>
                  N.lxor (lane st x)
                    (N.lxor (lane st (x + 5))
                       (N.lxor (lane st (x + 10))
                          (N.lxor (lane st (x + 15)) (lane st (x + 20))))))
               (seq 0 5) in
  let d := map (fun x =>
                  N.lxor (nth ((x + 4) mod 5) c 0)
                         (rotl (nth ((x + 1) mod 5) c 0) 1))
               (seq 0 5) in
  map (fun i => N.lxor (lane st i) (nth (i mod 5) d 0)) indices.

(** [rho] and [pi] together: the lane at [(x, y)] of the result is the lane
    at [(x', y)'] with [x = y'] and [y = 2 x' + 3 y'], rotated. *)
Definition rho_pi (st : list N) : list N :=
  map (fun i =>
         let x := (i mod 5)%nat in
         let y := (i / 5)%nat in
         let x' := ((x + 3 * y) mod 5)%nat in
         let y' := x in
         let j := (x' + 5 * y')%nat in
         rotl (lane st j) (nth j rotation_offsets 0))
      indices.

Definition chi (st : list N) : list N :=
  map (fun i =>
         let x := (i mod 5)%nat in
         let y := (i / 5)%nat in
         let b1 := lane st ((x + 1) mod 5 + 5 * y) in
         let b2 := lane st ((x + 2) mod 5 + 5 * y) in
         N.lxor (lane st i) (N.land (N.lxor b1 lane_mask) b2))
      indices.

Definition iota (rc : N) (st : list N) : list N :=
  match st with
  | [] => []
  | l0 :: rest => N.lxor l0 rc :: rest
  end.

Definition round (st : list N) (rc : N) : list N :=
  iota rc (chi (rho_pi (theta st))).

Definition keccak_f (st : list N) : list N :=
  fold_left round round_constants st.

(** Eight bytes, least significant first, as a lane. *)
Definition lane_of_bytes (b : list N) : N :=
  fold_right (fun x acc => x + 256 * acc) 0 b.

Fixpoint bytes_of_lane (n : nat) (w : N) : list N :=
  match n with
  | O => []
  | S n' => (w mod 256) :: bytes_of_lane n' (w / 256)
  end.

Fixpoint lanes_of_bytes (n : nat) (b : list N) : list N :=
  match n with
  | O => []
  | S n' => lane_of_bytes (firstn 8 b) :: lanes_of_bytes n' (skipn 8 b)
  end.

Definition rate : nat := 136.

(** XOR one block of [rate] bytes into the state and permute. *)
Definition absorb_block (st : list N) (block : list N) : list N :=
  let ls := lanes_of_bytes 17 block in
  keccak_f (map (fun i => N.lxor (lane st i) (nth i ls 0)) indices).

(** Pad the last (short) block: 0x01, zeroes, and 0x80 into the last
    byte. *)
Definition pad (tail : list N) : list N :=
  let n := List.length tail in
  if Nat.eqb n (rate - 1) then tail ++ [0x81]
  else tail ++ [0x01] ++ repeat 0 (rate - 2 - n) ++ [0x80].

Fixpoint absorb (fuel : nat) (st : list N) (msg : list N) : list N :=
  match fuel with
  | O => st
  | S fuel' =>
      if Nat.ltb (List.length msg) rate then absorb_block st (pad msg)
      else absorb fuel' (absorb_block st (firstn rate msg)) (skipn rate msg)
  end.

Definition squeeze (st : list N) : list N :=
  flat_map (bytes_of_lane 8) (firstn 4 st).

Definition keccak_256_N (msg : list N) : list N :=
  squeeze (absorb (S (List.length msg)) (repeat 0 25) msg).

End Keccak.

(** Modelled from the spec: [keccak_256] of [@noble/hashes/sha3], on byte
    strings: Keccak-256 with the original padding and 32 bytes of output. *)
Definition keccak_256 (msg : bytes) : bytes :=
  map (fun n => byteOfZ (Z.of_N n)) (Keccak.keccak_256_N (map Byte.to_N msg)).

(** ** Hexadecimal text *)

Definition hexDigit (n : Z) : ascii :=
  match n with
  | 0 => "0" | 1 => "1" | 2 => "2" | 3 => "3" | 4 => "4" | 5 => "5"
  | 6 => "6" | 7 => "7" | 8 => "8" | 9 => "9" | 10 => "a" | 11 => "b"
  | 12 => "c" | 13 => "d" | 14 => "e" | _ => "f"
  end%char.

Fixpoint unprefixedHex (b : bytes) : string :=
  match b with
  | [] => ""
  | x :: b' =>
      String (hexDigit (byteZ x / 16))
        (String (hexDigit (byteZ x mod 16)) (unprefixedHex b'))
  end.

(** Modelled from the spec: [bytesToHex] of [bytes.ts], which is not among the
    sources: "0x" and two lowercase hexadecimal digits per byte. *)
Definition bytesToHex (b : bytes) : string := ("0x" ++ unprefixedHex b)%string.

(** [n.toString()] and [`${n}`] of an integer: its decimal digits, after a
    minus sign when it is negative.  Numbers are integers throughout. *)
Definition toString (z : Z) : string :=
  NilZero.string_of_int (Z.to_int z).

Definition asciiZ (c : ascii) : Z := Z.of_N (N_of_ascii c).

Definition inRange (lo hi : ascii) (c : ascii) : bool :=
  (asciiZ lo <=? asciiZ c) && (asciiZ c <=? asciiZ hi).

(** The character class [[0-9A-Fa-f]]. *)
Definition isHexChar (c : ascii) : bool :=
  inRange "0" "9" c || inRange "a" "f" c || inRange "A" "F" c.

(** The value of a hexadecimal digit, [None] for any other character. *)
Definition hexValue (c : ascii) : option Z :=
  if inRange "0" "9" c then Some (asciiZ c - 48)
  else if inRange "a" "f" c then Some (asciiZ c - 87)
  else if inRange "A" "F" c then Some (asciiZ c - 55)
  else None.

Fixpoint allHexChars (s : string) : bool :=
  match s with
  | EmptyString => true
  | String c s' => isHexChar c && allHexChars s'
  end.

(** Modelled from the spec: [isHexString] of [internal.ts], which is not among
    the sources: a well-formed hex string is "0x" followed by hexadecimal
    digits of either case (no length is asked for here). *)
Definition isHexString (s : string) : bool :=
  match s with
  | String "0" (String "x" rest) => allHexChars rest
  | _ => false
  end.

(** Modelled from the spec: [assertIsHexString] of [helpers.ts], which is not
    among the sources: fails on anything but a well-formed hex string. *)
Definition assertIsHexString (s : string) : result unit :=
  if isHexString s then Ok tt
  else Throw (EthereumJSErrorWithoutCode
                ("This method only supports 0x-prefixed hex strings but input was: " ++ s)).

(** [s.slice(n)]: the string without its first [n] characters. *)
Fixpoint slice (n : nat) (s : string) : string :=
  match n, s with
  | S n', String _ s' => slice n' s'
  | _, _ => s
  end.

(** Modelled from the spec: [stripHexPrefix] of [internal.ts], which is not
    among the sources: drops the "0x" of a hex string and leaves any other
    string as it is. *)
Definition stripHexPrefix (s : string) : string :=
  if isHexString s then slice 2 s else s.

Fixpoint hexPairs (s : string) : bytes :=
  match s with
  | String hi (String lo rest) =>
      match hexValue hi, hexValue lo with
      | Some h, Some l => byteOfZ (16 * h + l) :: hexPairs rest
      | _, _ => []
      end
  | _ => []
  end.

Definition padToEven (s : string) : string :=
  if Nat.even (String.length s) then s else String "0" s.

(** Modelled from the spec: [hexToBytes] of [bytes.ts], which is not among the
    sources, on a well-formed hex string: the bytes its digits spell, an odd
    number of digits being completed by a leading zero. *)
Definition hexToBytes (s : string) : bytes :=
  hexPairs (padToEven (slice 2 s)).

(** Modelled from the spec: [utf8ToBytes] of [bytes.ts], which is not among the
    sources.  The strings of this development hold one byte per character,
    and the only strings encoded are ASCII, so the encoding is the list of
    their characters. *)
Definition utf8ToBytes (s : string) : bytes := list_byte_of_string s.

(** Modelled from the spec: the constants of [constants.ts], which is not
    among the sources, with the values the specification gives: the integer
    literals 0 and 1, the empty-code hash and the empty-trie-root hash. *)
Definition BIGINT_0 : Z := 0.
Definition BIGINT_1 : Z := 1.

Definition KECCAK256_NULL : bytes :=
  Eval vm_compute in
    hexToBytes "0xc5d2460186f7233c927e7db2dcc703c0e500b653ca82273b7bfad8045d85a470".

Definition KECCAK256_RLP : bytes :=
  Eval vm_compute in
    hexToBytes "0x56e81f171bcc55a6ff8345e692c0f86e5b48e01b996cadc001622fb5e363b421".

(** ** Values convertible to bytes *)

(** [BigIntLike] and [BytesLike] of [types.ts]: a bigint, a number, a
    0x-prefixed hex string or a [Uint8Array]. *)
Inductive BytesLike : Type :=
| BigInt (z : Z)
| Number (z : Z)
| HexString (s : string)
| Uint8Array (b : bytes).

Definition BigIntLike : Type := BytesLike.

(** The big-endian bytes of a non-negative integer in whole bytes: 0 is the
    single byte 0. *)
Definition wholeBytes (z : Z) : bytes :=
  if z =? 0 then [x00] else bigEndian z.

(** Modelled from the spec: [toBytes] of [bytes.ts], which is not among the
    sources: the numeric coercion of the factories.  Bytes stand for
    themselves, a hex string for the bytes it spells, an integer for its
    big-endian bytes; negative integers, numbers that are not safe integers
    and malformed hex strings are invalid input. *)
Definition toBytes (v : BytesLike) : result bytes :=
  match v with
  | Uint8Array b => Ok b
  | HexString s =>
      if isHexString s then Ok (hexToBytes s)
      else Throw (EthereumJSErrorWithoutCode
                    ("Cannot convert string to Uint8Array. toBytes only supports 0x-prefixed hex strings and this string was given: " ++ s))
  | Number n =>
      if (n <? 0) || (MAX_SAFE_INTEGER <? n)
      then Throw (EthereumJSErrorWithoutCode "Received an invalid integer type")
      else Ok (wholeBytes n)
  | BigInt n =>
      if n <? 0
      then Throw (EthereumJSErrorWithoutCode "Cannot convert negative bigint to Uint8Array")
      else Ok (wholeBytes n)
  end.

(** ** RLP

    The codec of [@ethereumjs/rlp], on byte strings and nested lists. *)

(** [NestedUint8Array]: what [RLP.decode] returns and [RLP.encode] takes. *)
#[warnings="-register-all"]
Inductive NestedUint8Array : Type :=
| RBytes (b : bytes)
| RList (items : list NestedUint8Array).

Module RLP.

(** The header of a payload of [len] bytes: one byte [offset + len] below
    56 bytes, else [offset + 55 + n] and the [n] big-endian bytes of
    [len]. *)
Definition encodeLength (len : nat) (offset : Z) : bytes :=
  if Nat.ltb len 56 then [byteOfZ (Z.of_nat len + offset)]
  else
    let hexLength := bigEndian (Z.of_nat len) in
    byteOfZ (offset + 55 + Z.of_nat (List.length hexLength)) :: hexLength.

(** Modelled from the spec: [RLP.encode] of the package [rlp] of the
    repository, which is not among the sources: a single byte below 0x80 is
    its own encoding; any other byte string and every list is a length
    header followed by the payload. *)
Fixpoint encode (input : NestedUint8Array) : bytes :=
  match input with
  | RList items =>
      let output := (fix encodeAll (l : list NestedUint8Array) : bytes :=
                       match l with
                       | [] => []
                       | x :: l' => encode x ++ encodeAll l'
                       end) items in
      encodeLength (List.length output) 192 ++ output
  | RBytes inputBuf =>
      match inputBuf with
      | [b] => if byteZ b <? 128 then inputBuf
               else encodeLength 1 128 ++ inputBuf
      | _ => encodeLength (List.length inputBuf) 128 ++ inputBuf
      end
  end.

(** [input.slice(start, end)], refused when [end] is past the input. *)
Definition safeSlice (input : bytes) (start finish : nat) : result bytes :=
  if Nat.ltb (List.length input) finish
  then Throw (Error "invalid RLP (safeSlice): end slice of Uint8Array out-of-bounds")
  else Ok (firstn (finish - start) (skipn start input)).

(** The length a long header spells; a leading zero byte is refused. *)
Definition decodeLength (v : bytes) : result nat :=
  match v with
  | [] => Throw (Error "Invalid byte sequence")
  | b :: _ =>
      if byteZ b =? 0 then Throw (Error "invalid RLP: extra zeros")
      else Ok (Z.to_nat (bytesToBigInt v))
  end.

Definition outOfFuel : error := Error "RLP: recursion bound reached".

(** One item off the front of [input], and what is left of it.  [fuel]
    bounds the recursion; [decode] gives more than any input needs. *)
Fixpoint _decode (fuel : nat) (input : bytes)
  : result (NestedUint8Array * bytes) :=
  match fuel with
  | O => Throw outOfFuel
  | S fuel' =>
      match input with
      | [] => Throw (Error "invalid RLP: no input")
      | first :: _ =>
          let firstByte := byteZ first in
          if firstByte <=? 0x7f then
            Ok (RBytes [first], skipn 1 input)
          else if firstByte <=? 0xb7 then
            let length := Z.to_nat (firstByte - 0x7f) in
            data <- (if firstByte =? 0x80 then Ok []
                     else safeSlice input 1 length) ;;
            if Nat.eqb length 2 && (byteZ (hd x00 data) <? 0x80)
            then Throw (Error "invalid RLP encoding: invalid prefix, single byte < 0x80 are not prefixed")
            else Ok (RBytes data, skipn length input)
          else if firstByte <=? 0xbf then
            let llength := Z.to_nat (firstByte - 0xb6) in
            if Nat.ltb (List.length input - 1) llength
            then Throw (Error "invalid RLP: not enough bytes for string length")
            else
              lbytes <- safeSlice input 1 llength ;;
              length <- decodeLength lbytes ;;
              if Nat.leb length 55
              then Throw (Error "invalid RLP: expected string length to be greater than 55")
              else
                data <- safeSlice input llength (length + llength) ;;
                Ok (RBytes data, skipn (length + llength) input)
          else if firstByte <=? 0xf7 then
            let length := Z.to_nat (firstByte - 0xbf) in
            innerRemainder <- safeSlice input 1 length ;;
            decoded <- decodeItems fuel' innerRemainder ;;
            Ok (RList decoded, skipn length input)
          else
            let llength := Z.to_nat (firstByte - 0xf6) in
            lbytes <- safeSlice input 1 llength ;;
            length <- decodeLength lbytes ;;
            if Nat.ltb length 56
            then Throw (Error "invalid RLP: encoded list too short")
            else
              let totalLength := (llength + length)%nat in
              if Nat.ltb (List.length input) totalLength
              then Throw (Error "invalid RLP: total length is larger than the data")
              else
                innerRemainder <- safeSlice input llength totalLength ;;
                decoded <- decodeItems fuel' innerRemainder ;;
                Ok (RList decoded, skipn totalLength input)
      end
  end

(** The loop [while (innerRemainder.length)]: items until nothing is
    left. *)
with decodeItems (fuel : nat) (innerRemainder : bytes)
  : result (list NestedUint8Array) :=
  match fuel with
  | O => Throw outOfFuel
  | S fuel' =>
      match innerRemainder with
      | [] => Ok []
      | _ :: _ =>
          d <- _decode fuel' innerRemainder ;;
          rest <- decodeItems fuel' (snd d) ;;
          Ok (fst d :: rest)
      end
  end.

(** Modelled from the spec: [RLP.decode] of the package [rlp] of the
    repository, which is not among the sources: the inverse of [encode],
    refusing malformed length prefixes and trailing bytes; the empty input
    decodes to the empty byte string. *)
Definition decode (input : bytes) : result NestedUint8Array :=
  match input with
  | [] => Ok (RBytes [])
  | _ :: _ =>
      decoded <- _decode (2 * List.length input + 2) input ;;
      match snd decoded with
      | [] => Ok (fst decoded)
      | _ :: _ => Throw (Error "invalid RLP: remainder must be zero")
      end
  end.

End RLP.

(** ** The Account class *)

(** A constructor argument or a field of an input descriptor: left out
    ([undefined]), the explicit absent marker ([null]), or a value. *)
Inductive arg (T : Type) : Type :=
| Undefined
| Null
| Value (v : T).
Arguments Undefined {T}.
Arguments Null {T}.
Arguments Value {T} v.

(** A default parameter [x: T | null = d]: only [undefined] takes the
    default, [null] is kept. *)
Definition orDefault {T : Type} (d : T) (a : arg T) : option T :=
  match a with
  | Undefined => Some d
  | Null => None
  | Value v => Some v
  end.

(** The six fields; [None] is [null]. *)
Record Account : Type := mkAccount {
  _nonce : option Z;
  _balance : option Z;
  _storageRoot : option bytes;
  _codeHash : option bytes;
  _codeSize : option Z;
  _version : option Z
}.

(** The read accessors. *)
Definition getter {T : Type} (field : string) (v : option T) : result T :=
  match v with
  | Some x => Ok x
  | None => Throw (notLoadedError field)
  end.

Definition version (this : Account) : result Z := getter "version" (_version this).
Definition nonce (this : Account) : result Z := getter "nonce" (_nonce this).
Definition balance (this : Account) : result Z := getter "balance" (_balance this).
Definition storageRoot (this : Account) : result bytes :=
  getter "storageRoot" (_storageRoot this).
Definition codeHash (this : Account) : result bytes :=
  getter "codeHash" (_codeHash this).
Definition codeSize (this : Account) : result Z := getter "codeSize" (_codeSize this).

(** [a && b] and [a || b] on operands that may throw: the right operand is
    evaluated only when the left one does not decide. *)
Definition andAlso (a b : result bool) : result bool :=
  x <- a ;; if x then b else Ok false.

Definition orElse (a b : result bool) : result bool :=
  x <- a ;; if x then Ok true else b.

Definition isNull {T : Type} (v : option T) : bool :=
  match v with
  | None => true
  | Some _ => false
  end.

Definition isContract (this : Account) : result bool :=
  if isNull (_codeHash this) && isNull (_codeSize this)
  then Throw (Error "Insufficient data as codeHash=null and codeSize=null")
  else
    Ok ((match _codeHash this with
         | Some h => negb (equalsBytes h KECCAK256_NULL)
         | None => false
         end)
        || (match _codeSize this with
            | Some n => negb (n =? 0)
            | None => false
            end)).

Definition check (bad : bool) (msg : string) : result unit :=
  if bad then Throw (EthereumJSErrorWithoutCode msg) else Ok tt.

Definition _validate (this : Account) : result unit :=
  _ <- check (match _nonce this with Some n => n <? BIGINT_0 | None => false end)
         "nonce must be greater than zero" ;;
  _ <- check (match _balance this with Some n => n <? BIGINT_0 | None => false end)
         "balance must be greater than zero" ;;
  _ <- check (match _storageRoot this with
              | Some r => negb (Nat.eqb (List.length r) 32)
              | None => false
              end)
         "storageRoot must have a length of 32" ;;
  _ <- check (match _codeHash this with
              | Some h => negb (Nat.eqb (List.length h) 32)
              | None => false
              end)
         "codeHash must have a length of 32" ;;
  check (match _codeSize this with Some n => n <? BIGINT_0 | None => false end)
    "codeSize must be greater than zero".

(** [new Account(nonce, balance, storageRoot, codeHash, codeSize, version)].
    The fields start as [null]; the first four are assigned, then the code
    size is settled (with [isContract] read on the object as it is by then),
    then the last two are assigned and the whole is validated. *)
Definition constructor
    (nonce balance : arg Z) (storageRoot codeHash : arg bytes)
    (codeSize version : arg Z) : result Account :=
  let nonce := orDefault BIGINT_0 nonce in
  let balance := orDefault BIGINT_0 balance in
  let storageRoot := orDefault KECCAK256_RLP storageRoot in
  let codeHash := orDefault KECCAK256_NULL codeHash in
  let codeSize := orDefault 0 codeSize in
  let version := orDefault 0 version in
  let this := mkAccount nonce balance storageRoot codeHash None None in
  infer <- andAlso (Ok (isNull codeSize))
             (andAlso (Ok (negb (isNull codeHash)))
                (c <- isContract this ;; Ok (negb c))) ;;
  let codeSize := if infer then Some 0 else codeSize in
  let this := mkAccount nonce balance storageRoot codeHash codeSize version in
  _ <- _validate this ;;
  Ok this.

Definition raw (this : Account) : result (list bytes) :=
  n <- nonce this ;;
  b <- balance this ;;
  r <- storageRoot this ;;
  h <- codeHash this ;;
  Ok [bigIntToUnpaddedBytes n; bigIntToUnpaddedBytes b; r; h].

Definition serialize (this : Account) : result bytes :=
  fields <- raw this ;;
  Ok (RLP.encode (RList (map RBytes fields))).

(** One entry of [partialData]: [[oneEncoded, value]] for a field that is
    there, [[zeroEncoded]] for [null]. *)
Definition partialField {T : Type} (enc : T -> bytes) (v : option T)
  : NestedUint8Array :=
  let zeroEncoded := intToUnpaddedBytes 0 in
  let oneEncoded := intToUnpaddedBytes 1 in
  match v with
  | Some x => RList [RBytes oneEncoded; RBytes (enc x)]
  | None => RList [RBytes zeroEncoded]
  end.

Definition serializeWithPartialInfo (this : Account) : bytes :=
  let partialData :=
    [ partialField bigIntToUnpaddedBytes (_nonce this);
      partialField bigIntToUnpaddedBytes (_balance this);
      partialField (fun r => r) (_storageRoot this);
      partialField (fun h => h) (_codeHash this);
      partialField intToUnpaddedBytes (_codeSize this);
      partialField intToUnpaddedBytes (_version this) ] in
  RLP.encode (RList partialData).

Definition isEmpty (this : Account) : result bool :=
  shortCut <-
    orElse
      (andAlso (Ok (negb (isNull (_balance this))))
         (b <- balance this ;; Ok (negb (b =? BIGINT_0))))
      (orElse
         (andAlso (Ok (isNull (_nonce this)))
            (n <- nonce this ;; Ok (negb (n =? BIGINT_0))))
         (andAlso (Ok (negb (isNull (_codeHash this))))
            (h <- codeHash this ;; Ok (negb (equalsBytes h KECCAK256_NULL))))) ;;
  if shortCut then Ok false
  else
    andAlso (b <- balance this ;; Ok (b =? BIGINT_0))
      (andAlso (n <- nonce this ;; Ok (n =? BIGINT_0))
         (h <- codeHash this ;; Ok (equalsBytes h KECCAK256_NULL))).

(** ** Decoding a partial field *)

(** The cast [x as Uint8Array] where the helpers of [bytes.ts] read [x].  The
    source does not check it, and what those helpers do with a nested list is
    outside the sources: the embedding stops there. *)
Definition asUint8Array (x : NestedUint8Array) : result bytes :=
  match x with
  | RBytes b => Ok b
  | RList _ => Throw (Error "a nested list where a Uint8Array is expected")
  end.

(** [None] is [null]; the second element is handed back as it is. *)
Definition handleNullIndicator (values : list NestedUint8Array)
  : result (option NestedUint8Array) :=
  match nth_error values 0 with
  | None => Ok None
  | Some first =>
      first <- asUint8Array first ;;
      nullIndicator <- bytesToInt first ;;
      if nullIndicator =? 0 then Ok None
      else if 1 <? nullIndicator then
        Throw (EthereumJSErrorWithoutCode
                 ("Invalid isNullIndicator=" ++ toString nullIndicator))
      else if Nat.ltb (List.length values) 2 then
        Throw (EthereumJSErrorWithoutCode
                 ("Invalid values length="
                    ++ toString (Z.of_nat (List.length values))))
      else
        match nth_error values 1 with
        | Some second => Ok (Some second)
        | None => Ok None
        end
  end.

(** ** Account factories *)

(** [PartialAccountData]: each field left out, [null], or a value. *)
Record PartialAccountData : Type := mkPartialAccountData {
  pad_nonce : arg BigIntLike;
  pad_balance : arg BigIntLike;
  pad_storageRoot : arg BytesLike;
  pad_codeHash : arg BytesLike;
  pad_codeSize : arg BigIntLike;
  pad_version : arg BigIntLike
}.

Definition argIsNull {T : Type} (a : arg T) : bool :=
  match a with
  | Null => true
  | _ => false
  end.

(** [x !== undefined && x !== null ? f(toBytes(x)) : x]. *)
Definition coerce {T : Type} (f : bytes -> T) (a : arg BytesLike)
  : result (arg T) :=
  match a with
  | Value x => b <- toBytes x ;; Ok (Value (f b))
  | Undefined => Ok Undefined
  | Null => Ok Null
  end.

(** [x !== undefined && x !== null ? bytesToInt(toBytes(x)) : x]. *)
Definition coerceInt (a : arg BytesLike) : result (arg Z) :=
  match a with
  | Value x => b <- toBytes x ;; n <- bytesToInt b ;; Ok (Value n)
  | Undefined => Ok Undefined
  | Null => Ok Null
  end.

Definition createPartialAccount (partialAccountData : PartialAccountData)
  : result Account :=
  let nonce := pad_nonce partialAccountData in
  let balance := pad_balance partialAccountData in
  let storageRoot := pad_storageRoot partialAccountData in
  let codeHash := pad_codeHash partialAccountData in
  let codeSize := pad_codeSize partialAccountData in
  let version := pad_version partialAccountData in
  if argIsNull nonce && argIsNull balance && argIsNull storageRoot
     && argIsNull codeHash && argIsNull codeSize && argIsNull version
  then Throw (Error "All partial fields null")
  else
    nonce <- coerce bytesToBigInt nonce ;;
    balance <- coerce bytesToBigInt balance ;;
    storageRoot <- coerce (fun b => b) storageRoot ;;
    codeHash <- coerce (fun b => b) codeHash ;;
    codeSize <- coerceInt codeSize ;;
    version <- coerceInt version ;;
    constructor nonce balance storageRoot codeHash codeSize version.

Fixpoint mapM {A B : Type} (f : A -> result B) (l : list A) : result (list B) :=
  match l with
  | [] => Ok []
  | x :: l' => y <- f x ;; ys <- mapM f l' ;; Ok (y :: ys)
  end.

(** The check [Array.isArray(value)] on one item of the decoded list. *)
Definition asArray (value : NestedUint8Array)
  : result (list NestedUint8Array) :=
  match value with
  | RList items => Ok items
  | RBytes _ =>
      Throw (EthereumJSErrorWithoutCode
               "Invalid partial encoding. Each item must be an array")
  end.

(** One name of the destructuring [[a, b, ...] = array]: [undefined] past the
    end of the array. *)
Definition element {T : Type} (l : list (option T)) (i : nat) : arg T :=
  match nth_error l i with
  | Some (Some x) => Value x
  | Some None => Null
  | None => Undefined
  end.

(** [raw === null ? null : f(raw)].  A name left [undefined] by the
    destructuring would reach the helpers of [bytes.ts] outside their type,
    and the embedding stops there. *)
Definition fromRaw (f : bytes -> BytesLike) (raw : arg NestedUint8Array)
  : result (arg BytesLike) :=
  match raw with
  | Null => Ok Null
  | Value x => b <- asUint8Array x ;; Ok (Value (f b))
  | Undefined => Throw (Error "undefined where a Uint8Array is expected")
  end.

(** [raw === null ? null : bytesToInt(raw)], a number. *)
Definition fromRawInt (raw : arg NestedUint8Array) : result (arg BytesLike) :=
  match raw with
  | Null => Ok Null
  | Value x => b <- asUint8Array x ;; n <- bytesToInt b ;; Ok (Value (Number n))
  | Undefined => Throw (Error "undefined where a Uint8Array is expected")
  end.

(** A raw field handed on as it is, as a [BytesLike]. *)
Definition passRaw (raw : arg NestedUint8Array) : result (arg BytesLike) :=
  match raw with
  | Null => Ok Null
  | Value x => b <- asUint8Array x ;; Ok (Value (Uint8Array b))
  | Undefined => Ok Undefined
  end.

Definition createPartialAccountFromRLP (serialized : bytes) : result Account :=
  values <- RLP.decode serialized ;;
  match values with
  | RBytes _ =>
      Throw (EthereumJSErrorWithoutCode
               "Invalid serialized account input. Must be array")
  | RList values =>
      arrays <- mapM asArray values ;;
      fields <- mapM handleNullIndicator arrays ;;
      let nonceRaw := element fields 0 in
      let balanceRaw := element fields 1 in
      let storageRoot := element fields 2 in
      let codeHash := element fields 3 in
      let codeSizeRaw := element fields 4 in
      let versionRaw := element fields 5 in
      nonce <- fromRaw (fun b => BigInt (bytesToBigInt b)) nonceRaw ;;
      balance <- fromRaw (fun b => BigInt (bytesToBigInt b)) balanceRaw ;;
      codeSize <- fromRawInt codeSizeRaw ;;
      version <- fromRawInt versionRaw ;;
      storageRoot <- passRaw storageRoot ;;
      codeHash <- passRaw codeHash ;;
      createPartialAccount
        (mkPartialAccountData nonce balance storageRoot codeHash codeSize version)
  end.

(** ** Addresses *)

Definition toLowerChar (c : ascii) : ascii :=
  if inRange "A" "Z" c then ascii_of_N (N_of_ascii c + 32) else c.

Definition toUpperChar (c : ascii) : ascii :=
  if inRange "a" "z" c then ascii_of_N (N_of_ascii c - 32) else c.

Fixpoint mapString (f : ascii -> ascii) (s : string) : string :=
  match s with
  | EmptyString => EmptyString
  | String c s' => String (f c) (mapString f s')
  end.

(** [s.toLowerCase()] and [s.toUpperCase()] on the strings of this
    development, which hold ASCII. *)
Definition toLowerCase (s : string) : string := mapString toLowerChar s.
Definition toUpperCase (s : string) : string := mapString toUpperChar s.

(** [parseInt(s[i], 16)]: the value of the digit at index [i], [None] (NaN)
    when there is no hexadecimal digit there. *)
Definition parseInt16 (c : option ascii) : option Z :=
  match c with
  | Some c => hexValue c
  | None => None
  end.

(** [x >= k], false when [x] is NaN. *)
Definition geNumber (x : option Z) (k : Z) : bool :=
  match x with
  | Some v => k <=? v
  | None => false
  end.

(** The pattern [/^0x[0-9a-fA-F]{40}$/]. *)
Definition isValidAddress (hexAddress : string) : bool :=
  isHexString hexAddress && Nat.eqb (String.length hexAddress) 42.

(** What one turn of the loop of [toChecksumAddress] adds to [ret]. *)
Definition checksumStep (address hash : string) (i : nat) : string :=
  match String.get i address with
  | Some c =>
      if geNumber (parseInt16 (String.get i hash)) 8
      then String (toUpperChar c) ""
      else String c ""
  | None => ""
  end.

Definition toChecksumAddress (hexAddress : string)
    (eip1191ChainId : option BigIntLike) : result string :=
  _ <- assertIsHexString hexAddress ;;
  let address := toLowerCase (stripHexPrefix hexAddress) in
  prefix <- match eip1191ChainId with
            | Some id =>
                b <- toBytes id ;;
                let chainId := bytesToBigInt b in
                Ok (toString chainId ++ "0x")%string
            | None => Ok ""
            end ;;
  let bytes := utf8ToBytes (prefix ++ address)%string in
  let hash := slice 2 (bytesToHex (keccak_256 bytes)) in
  let ret := fold_left (fun ret i => (ret ++ checksumStep address hash i)%string)
               (seq 0 (String.length address)) "" in
  Ok ("0x" ++ ret)%string.

Definition isValidChecksumAddress (hexAddress : string)
    (eip1191ChainId : option BigIntLike) : result bool :=
  if isValidAddress hexAddress then
    r <- toChecksumAddress hexAddress eip1191ChainId ;;
    Ok (String.eqb r hexAddress)
  else Ok false.

Definition generateAddress (from nonce : bytes) : bytes :=
  if bytesToBigInt nonce =? BIGINT_0 then
    subarrayLast 20 (keccak_256 (RLP.encode (RList [RBytes from; RBytes []])))
  else
    subarrayLast 20 (keccak_256 (RLP.encode (RList [RBytes from; RBytes nonce]))).

Definition generateAddress2 (from salt initCode : bytes) : result bytes :=
  if negb (Nat.eqb (List.length from) 20) then
    Throw (EthereumJSErrorWithoutCode "Expected from to be of length 20")
  else if negb (Nat.eqb (List.length salt) 32) then
    Throw (EthereumJSErrorWithoutCode "Expected salt to be of length 32")
  else
    let address :=
      keccak_256 (concatBytes [hexToBytes "0xff"; from; salt; keccak_256 initCode]) in
    Ok (subarrayLast 20 address).

(** ** The slim account body *)

(** [AccountBodyBytes]: nonce, balance, storage root, code hash. *)
Definition AccountBodyBytes : Type := (bytes * bytes * bytes * bytes)%type.

Definition accountBodyFromSlim (body : AccountBodyBytes) : AccountBodyBytes :=
  let '(nonce, balance, storageRoot, codeHash) := body in
  (nonce, balance,
   if Nat.eqb (List.length storageRoot) 0 then KECCAK256_RLP else storageRoot,
   if Nat.eqb (List.length codeHash) 0 then KECCAK256_NULL else codeHash).

Definition emptyUint8Arr : bytes := [].

Definition accountBodyToSlim (body : AccountBodyBytes) : AccountBodyBytes :=
  let '(nonce, balance, storageRoot, codeHash) := body in
  (nonce, balance,
   if equalsBytes storageRoot KECCAK256_RLP then emptyUint8Arr else storageRoot,
   if equalsBytes codeHash KECCAK256_NULL then emptyUint8Arr else codeHash).

Definition accountBodyToRLP (body : AccountBodyBytes) (couldBeSlim : bool) : bytes :=
  let '(nonce, balance, storageRoot, codeHash) :=
    if couldBeSlim then accountBodyFromSlim body else body in
  RLP.encode (RList [RBytes nonce; RBytes balance; RBytes storageRoot; RBytes codeHash]).

(** ** The y-parity of a typed transaction *)

(** What [validateYParity] reads of an [EIP2718CompatibleTx]: the y-parity
    [v], [None] when it is [undefined], and the text [errorStr()] gives for
    error messages. *)
Record EIP2718CompatibleTx : Type := mkTx {
  txType : Z;
  v : option Z;
  errorStr : string
}.

Section YParity.

(** [errorMsg] of [legacy.ts], which is not among the sources: the message
    of a failure on a transaction. *)
Variable errorMsg : EIP2718CompatibleTx -> string -> string.

(** The outcome, and the transaction as the call leaves it. *)
Definition validateYParity (tx : EIP2718CompatibleTx)
  : result unit * EIP2718CompatibleTx :=
  match v tx with
  | Some y =>
      if negb (y =? BIGINT_0) && negb (y =? BIGINT_1) then
        let msg :=
          errorMsg tx "The y-parity of the transaction should either be 0 or 1" in
        (Throw (EthereumJSErrorWithoutCode msg), tx)
      else (Ok tt, tx)
  | None => (Ok tt, tx)
  end.

End YParity.


(** ** The factories of full accounts *)

(** [AccountData]: the four core fields, each left out or given; the type has
    no [null], and [createAccount] refuses one at run time. *)
Record AccountData : Type := mkAccountData {
  ad_nonce : arg BigIntLike;
  ad_balance : arg BigIntLike;
  ad_storageRoot : arg BytesLike;
  ad_codeHash : arg BytesLike
}.

Definition createAccount (accountData : AccountData) : result Account :=
  let nonce := ad_nonce accountData in
  let balance := ad_balance accountData in
  let storageRoot := ad_storageRoot accountData in
  let codeHash := ad_codeHash accountData in
  if argIsNull nonce || argIsNull balance || argIsNull storageRoot
     || argIsNull codeHash
  then Throw (Error "Partial fields not supported in fromAccountData")
  else
    nonce <- coerce bytesToBigInt nonce ;;
    balance <- coerce bytesToBigInt balance ;;
    storageRoot <- coerce (fun b => b) storageRoot ;;
    codeHash <- coerce (fun b => b) codeHash ;;
    constructor nonce balance storageRoot codeHash Undefined Undefined.

(** [bytesToBigInt(x)] on a name of the destructuring [[nonce, balance, ...] =
    values].  A name left [undefined] by a short array, or bound to a nested
    list, would reach [bytesToBigInt] outside its type, and the embedding
    stops there. *)
Definition readBigInt (x : option NestedUint8Array) : result Z :=
  match x with
  | Some y => b <- asUint8Array y ;; Ok (bytesToBigInt b)
  | None => Throw (Error "undefined where a Uint8Array is expected")
  end.

(** A name of the destructuring handed to the constructor as it is:
    [undefined] past the end of the array. *)
Definition readBytes (x : option NestedUint8Array) : result (arg bytes) :=
  match x with
  | Some y => b <- asUint8Array y ;; Ok (Value b)
  | None => Ok Undefined
  end.

Definition createAccountFromBytesArray (values : list NestedUint8Array)
  : result Account :=
  nonce <- readBigInt (nth_error values 0) ;;
  balance <- readBigInt (nth_error values 1) ;;
  storageRoot <- readBytes (nth_error values 2) ;;
  codeHash <- readBytes (nth_error values 3) ;;
  constructor (Value nonce) (Value balance) storageRoot codeHash
    Undefined Undefined.

Definition createAccountFromRLP (serialized : bytes) : result Account :=
  values <- RLP.decode serialized ;;
  match values with
  | RBytes _ =>
      Throw (EthereumJSErrorWithoutCode
               "Invalid serialized account input. Must be array")
  | RList values => createAccountFromBytesArray values
  end.

(** ** The zero address *)

Definition zeroAddress : string := bytesToHex (repeat x00 20).

Definition isZeroAddress (hexAddress : string) : bool :=
  let zeroAddr := zeroAddress in
  String.eqb zeroAddr hexAddress.

(** ** Keys *)

Section Secp256k1.

(** The curve of [@noble/curves/secp256k1], a dependency outside the
    repository: its points, the parser of SEC1 encodings
    [ProjectivePoint.fromHex], the point of a private key
    [ProjectivePoint.fromPrivateKey], the serialisation [toRawBytes] (with its
    flag for the compressed form) and [utils.isValidPrivateKey]. *)
Variable Point : Type.
Variable fromHex : bytes -> result Point.
Variable fromPrivateKey : bytes -> result Point.
Variable toRawBytes : Point -> bool -> bytes.
Variable isValidPrivateKey : bytes -> bool.

Definition isValidPrivate (privateKey : bytes) : bool :=
  isValidPrivateKey privateKey.

Definition succeeds {A : Type} (r : result A) : bool :=
  match r with
  | Ok _ => true
  | Throw _ => false
  end.

Definition isValidPublic (publicKey : bytes) (sanitize : bool) : bool :=
  if Nat.eqb (List.length publicKey) 64 then
    succeeds (fromHex (concatBytes [[x04]; publicKey]))
  else if negb sanitize then false
  else succeeds (fromHex publicKey).

Definition pubToAddress (pubKey : bytes) (sanitize : bool) : result bytes :=
  pubKey <- (if sanitize && negb (Nat.eqb (List.length pubKey) 64)
             then p <- fromHex pubKey ;; Ok (skipn 1 (toRawBytes p false))
             else Ok pubKey) ;;
  if negb (Nat.eqb (List.length pubKey) 64) then
    Throw (EthereumJSErrorWithoutCode "Expected pubKey to be of length 64")
  else Ok (subarrayLast 20 (keccak_256 pubKey)).

Definition publicToAddress : bytes -> bool -> result bytes := pubToAddress.

Definition privateToPublic (privateKey : bytes) : result bytes :=
  p <- fromPrivateKey privateKey ;; Ok (skipn 1 (toRawBytes p false)).

Definition privateToAddress (privateKey : bytes) : result bytes :=
  publicKey <- privateToPublic privateKey ;; publicToAddress publicKey false.

Definition importPublic (publicKey : bytes) : result bytes :=
  if negb (Nat.eqb (List.length publicKey) 64) then
    p <- fromHex publicKey ;; Ok (skipn 1 (toRawBytes p false))
  else Ok publicKey.

End Secp256k1.

(** ** The envelope of a typed transaction *)

Module EIP2718.

Section Envelope.

(** What the helpers read of the transaction beside its fields: [tx.raw()],
    [tx.getMessageToSign()] and [tx.common.customCrypto.keccak256]; and
    [txTypeBytes] of [util/internal.ts], which is not among the sources. *)
Variable raw : EIP2718CompatibleTx -> NestedUint8Array.
Variable getMessageToSign : EIP2718CompatibleTx -> bytes.
Variable customKeccak256 : EIP2718CompatibleTx -> option (bytes -> bytes).
Variable txTypeBytes : Z -> bytes.

Definition getHashedMessageToSign (tx : EIP2718CompatibleTx) : bytes :=
  let keccakFunction :=
    match customKeccak256 tx with
    | Some f => f
    | None => keccak_256
    end in
  keccakFunction (getMessageToSign tx).

Definition serialize (tx : EIP2718CompatibleTx) (base : option NestedUint8Array)
  : bytes :=
  concatBytes
    [ txTypeBytes (txType tx);
      RLP.encode (match base with
                  | Some b => b
                  | None => raw tx
                  end) ].

End Envelope.

End EIP2718.

(** ** The vocabulary of the statements *)

(** The ways to write the number 5 in a [PartialAccountData]. *)
Definition five : list BigIntLike :=
  [BigInt 5; Number 5; HexString "0x5"; HexString "0x05"; Uint8Array [x05]].

(** A field that is there and out of its bound: a negative nonce, balance or
    code size, a storage root or code hash that is not 32 bytes long. *)
Definition boundViolated (nonce balance : option Z)
    (storageRoot codeHash : option bytes) (codeSize : option Z) : Prop :=
  (exists n, nonce = Some n /\ n < 0)
  \/ (exists n, balance = Some n /\ n < 0)
  \/ (exists r, storageRoot = Some r /\ List.length r <> 32%nat)
  \/ (exists h, codeHash = Some h /\ List.length h <> 32%nat)
  \/ (exists n, codeSize = Some n /\ n < 0).

(** The code size the constructor stores: 0 when none is given and the code
    hash is there and is the hash of no code, else the one given. *)
Definition storedCodeSize (codeHash : option bytes) (codeSize : option Z)
  : option Z :=
  match codeSize, codeHash with
  | None, Some h => if equalsBytes h KECCAK256_NULL then Some 0 else None
  | _, _ => codeSize
  end.

(** What the slim form may hold for a hash: the default constant, or 32 bytes
    that are not the constant. *)
Definition defaultOr32 (dflt value : bytes) : Prop :=
  value = dflt \/ (List.length value = 32%nat /\ value <> dflt).

(** The case-adjusted characters, character by character: the first
    character of the address against the first digit of the hash, and so
    on; a character with no digit facing it is kept. *)
Fixpoint caseAdjust (address hash : string) : string :=
  match address with
  | EmptyString => EmptyString
  | String c address' =>
      String (if geNumber (parseInt16 (String.get 0 hash)) 8
              then toUpperChar c else c)
        (caseAdjust address' (slice 1 hash))
  end.

(** Digit [i] of a hash written in hexadecimal, from its bytes: the high half
    of byte [i / 2] when [i] is even, the low half when it is odd. *)
Definition hashDigit (hash : bytes) (i : nat) : option Z :=
  match nth_error hash (i / 2) with
  | Some b => Some (if Nat.even i then byteZ b / 16 else byteZ b mod 16)
  | None => None
  end.

(** A value, or a failure other than the bound of the RLP decoder. *)
Definition fueled {A : Type} (r : result A) : Prop :=
  forall e, r = Throw e -> e <> RLP.outOfFuel.

(** The recursion [_decode] and [decodeItems] go through on the encoding of
    a value: one step for a byte string, one more than its items for a list,
    the items taking one step each on top of the deepest of them. *)
Fixpoint depth (x : NestedUint8Array) : nat :=
  match x with
  | RBytes _ => 1%nat
  | RList items =>
      S ((fix depthAll (l : list NestedUint8Array) : nat :=
            match l with
            | [] => 1%nat
            | y :: l' => S (Nat.max (depth y) (depthAll l'))
            end) items)
  end.

Fixpoint depthItems (l : list NestedUint8Array) : nat :=
  match l with
  | [] => 1%nat
  | y :: l' => S (Nat.max (depth y) (depthItems l'))
  end.

(** A field of an account as an argument of the constructor: [null] when it
    is not loaded. *)
Definition optArg {T : Type} (v : option T) : arg T :=
  match v with
  | Some x => Value x
  | None => Null
  end.

(** A field that is not loaded, or whose value is in [lo, hi). *)
Definition within (lo hi : Z) (v : option Z) : Prop :=
  match v with
  | Some n => lo <= n < hi
  | None => True
  end.

(** A hash that is not loaded, or of 32 bytes. *)
Definition hash32 (v : option bytes) : Prop :=
  match v with
  | Some h => List.length h = 32%nat
  | None => True
  end.

(** An upper bound of the length of an encoding: nine bytes of header at
    most on every byte string and on every list. *)
Fixpoint sizeBound (x : NestedUint8Array) : nat :=
  match x with
  | RBytes b => (List.length b + 9)%nat
  | RList items =>
      ((fix sizeAll (l : list NestedUint8Array) : nat :=
          match l with
          | [] => 0%nat
          | y :: l' => (sizeBound y + sizeAll l')%nat
          end) items + 9)%nat
  end.

Fixpoint sizeBoundItems (l : list NestedUint8Array) : nat :=
  match l with
  | [] => 0%nat
  | y :: l' => (sizeBound y + sizeBoundItems l')%nat
  end.

(** Decimal digits only. *)
Fixpoint allDigits (s : string) : bool :=
  match s with
  | EmptyString => true
  | String c s' => inRange "0" "9" c && allDigits s'
  end.

(** A stand-in for the curve, to run the key functions on: a point is its 64
    bytes, read off an encoding of 65 bytes that starts with the byte 4. *)
Definition toyFromHex (encoded : bytes) : result bytes :=
  match encoded with
  | first :: key =>
      if (byteZ first =? 4) && Nat.eqb (List.length key) 64 then Ok key
      else Throw (Error "Point is not on curve")
  | [] => Throw (Error "Point is not on curve")
  end.

Definition toyFromPrivateKey (privateKey : bytes) : result bytes :=
  if Nat.eqb (List.length privateKey) 32 then Ok (privateKey ++ privateKey)
  else Throw (Error "private key must be 32 bytes").

Definition toyToRawBytes (p : bytes) (isCompressed : bool) : bytes :=
  x04 :: firstn 64 (p ++ repeat x00 64).

(** * Properties *)

(** Every failure of a read accessor is of the kind not loaded. *)
Lemma getter_NotLoaded {T : Type} (field : string) (x : option T) (e : error) :
  getter field x = Throw e -> NotLoaded e.
Proof.
  destruct x; simpl; intros H; inversion H; subst.
  now exists field.
Qed.

(** The two constants are what the specification says they are: the hash of
    no bytes, and the hash of the RLP encoding of the empty byte string. *)
Lemma constants_are_hashes :
  KECCAK256_NULL = keccak_256 []
  /\ KECCAK256_RLP = keccak_256 (RLP.encode (RBytes [])).
Proof. split; vm_compute; reflexivity. Qed.

(** ** The recursion bound of the RLP decoder is never reached *)

Lemma bind_fueled {A B : Type} (r : result A) (k : A -> result B) :
  fueled r -> (forall a, r = Ok a -> fueled (k a)) -> fueled (bind r k).
Proof.
  intros Hr Hk. destruct r as [a | e]; simpl.
  - apply Hk. reflexivity.
  - intros e' H. inversion H; subst. apply (Hr e'). reflexivity.
Qed.

Lemma fueled_Throw {A B : Type} (r : result A) (e : error) :
  r = Throw e -> fueled r -> fueled (@Throw B e).
Proof.
  intros -> Hr e' H. inversion H; subst. apply (Hr e'). reflexivity.
Qed.

(** A value, or a failure that is spelled out. *)
Ltac answered :=
  let e := fresh "e" in
  let H := fresh "H" in
  intros e H; inversion H; subst; unfold RLP.outOfFuel; discriminate.

Lemma safeSlice_fueled (input : bytes) (start finish : nat) :
  fueled (RLP.safeSlice input start finish).
Proof.
  unfold RLP.safeSlice.
  destruct (Nat.ltb (List.length input) finish); answered.
Qed.

Lemma safeSlice_Ok (input : bytes) (start finish : nat) (d : bytes) :
  RLP.safeSlice input start finish = Ok d ->
  (finish <= List.length input)%nat
  /\ (List.length d <= finish - start)%nat.
Proof.
  unfold RLP.safeSlice.
  destruct (Nat.ltb_spec (List.length input) finish); [discriminate |].
  intros H0. inversion H0; subst. split; [assumption |].
  rewrite length_firstn. lia.
Qed.

Lemma decodeLength_fueled (lbytes : bytes) : fueled (RLP.decodeLength lbytes).
Proof.
  unfold RLP.decodeLength.
  destruct lbytes as [| b l]; [answered |].
  destruct (byteZ b =? 0); answered.
Qed.

Lemma byteZ_range (b : byte) : 0 <= byteZ b < 256.
Proof. destruct b; vm_compute; split; congruence. Qed.

(** With twice the length of the input as fuel, [_decode] does not stop at
    the bound and leaves less than it was given; [decodeItems] needs one
    more. *)
Lemma decode_fuel (fuel : nat) :
  (forall input,
      input <> [] ->
      (2 * List.length input <= fuel)%nat ->
      fueled (RLP._decode fuel input)
      /\ forall d, RLP._decode fuel input = Ok d ->
                   (List.length (snd d) < List.length input)%nat)
  /\ (forall innerRemainder,
        (2 * List.length innerRemainder + 1 <= fuel)%nat ->
        fueled (RLP.decodeItems fuel innerRemainder)).
Proof.
  induction fuel as [| fuel [IHd IHi]].
  - split.
    + intros [| b input] Hne Hlen; [congruence | simpl in Hlen; lia].
    + intros r Hlen. lia.
  - split.
    + intros [| first rest] Hne Hlen; [congruence |].
      simpl List.length in Hlen.
      cbn [RLP._decode].
      pose proof (byteZ_range first) as Hb.
      destruct (Z.leb_spec (byteZ first) 0x7f) as [H1 | H1].
      { split; [answered |].
        intros d Hd. inversion Hd; subst. simpl. lia. }
      destruct (Z.leb_spec (byteZ first) 0xb7) as [H2 | H2].
      { set (length := Z.to_nat (byteZ first - 0x7f)).
        assert (Hl : (1 <= length)%nat) by (unfold length; lia).
        destruct (if byteZ first =? 0x80 then Ok []
                  else RLP.safeSlice (first :: rest) 1 length)
          as [data | e] eqn:Hdata; cbn [bind].
        - destruct (Nat.eqb length 2 && (byteZ (hd x00 data) <? 0x80)).
          + split; [answered | discriminate].
          + split; [answered |].
            intros d Hd. inversion Hd; subst. cbn [snd].
            rewrite length_skipn. simpl List.length. lia.
        - split; [| discriminate].
          destruct (byteZ first =? 0x80); [discriminate |].
          apply (fueled_Throw _ _ Hdata), safeSlice_fueled. }
      destruct (Z.leb_spec (byteZ first) 0xbf) as [H3 | H3].
      { set (llength := Z.to_nat (byteZ first - 0xb6)).
        assert (Hl : (1 <= llength)%nat) by (unfold llength; lia).
        destruct (Nat.ltb (List.length (first :: rest) - 1) llength);
          [split; [answered | discriminate] |].
        destruct (RLP.safeSlice (first :: rest) 1 llength) as [lbytes | e] eqn:Hs;
          cbn [bind];
          [| split; [apply (fueled_Throw _ _ Hs), safeSlice_fueled
                    | discriminate]].
        destruct (RLP.decodeLength lbytes) as [length | e] eqn:Hdl; cbn [bind];
          [| split; [apply (fueled_Throw _ _ Hdl), decodeLength_fueled
                    | discriminate]].
        destruct (Nat.leb length 55); [split; [answered | discriminate] |].
        destruct (RLP.safeSlice (first :: rest) llength (length + llength))
          as [data | e] eqn:Hs2; cbn [bind];
          [| split; [apply (fueled_Throw _ _ Hs2), safeSlice_fueled
                    | discriminate]].
        split; [answered |].
        intros d Hd. inversion Hd; subst. cbn [snd].
        rewrite length_skipn. simpl List.length. lia. }
      destruct (Z.leb_spec (byteZ first) 0xf7) as [H4 | H4].
      { set (length := Z.to_nat (byteZ first - 0xbf)).
        assert (Hl : (1 <= length)%nat) by (unfold length; lia).
        destruct (RLP.safeSlice (first :: rest) 1 length) as [inner | e] eqn:Hs;
          cbn [bind];
          [| split; [apply (fueled_Throw _ _ Hs), safeSlice_fueled
                    | discriminate]].
        apply safeSlice_Ok in Hs. destruct Hs as [Hs1 Hs2].
        simpl List.length in Hs1.
        assert (Hin : fueled (RLP.decodeItems fuel inner))
          by (apply IHi; lia).
        destruct (RLP.decodeItems fuel inner) as [decoded | e] eqn:Hdi;
          cbn [bind].
        - split; [answered |].
          intros d Hd. inversion Hd; subst. cbn [snd].
          rewrite length_skipn. simpl List.length. lia.
        - split; [| discriminate].
          intros e' He'. inversion He'; subst. apply (Hin e'). reflexivity. }
      { set (llength := Z.to_nat (byteZ first - 0xf6)).
        assert (Hl : (2 <= llength)%nat) by (unfold llength; lia).
        destruct (RLP.safeSlice (first :: rest) 1 llength) as [lbytes | e] eqn:Hs;
          cbn [bind];
          [| split; [apply (fueled_Throw _ _ Hs), safeSlice_fueled
                    | discriminate]].
        destruct (RLP.decodeLength lbytes) as [length | e] eqn:Hdl; cbn [bind];
          [| split; [apply (fueled_Throw _ _ Hdl), decodeLength_fueled
                    | discriminate]].
        destruct (Nat.ltb length 56); [split; [answered | discriminate] |].
        cbv zeta.
        destruct (Nat.ltb (List.length (first :: rest)) (llength + length));
          [split; [answered | discriminate] |].
        destruct (RLP.safeSlice (first :: rest) llength (llength + length))
          as [inner | e] eqn:Hs2; cbn [bind];
          [| split; [apply (fueled_Throw _ _ Hs2), safeSlice_fueled
                    | discriminate]].
        apply safeSlice_Ok in Hs2. destruct Hs2 as [Hs21 Hs22].
        simpl List.length in Hs21.
        assert (Hin : fueled (RLP.decodeItems fuel inner))
          by (apply IHi; lia).
        destruct (RLP.decodeItems fuel inner) as [decoded | e] eqn:Hdi;
          cbn [bind].
        - split; [answered |].
          intros d Hd. inversion Hd; subst. cbn [snd].
          rewrite length_skipn. simpl List.length. lia.
        - split; [| discriminate].
          intros e' He'. inversion He'; subst. apply (Hin e'). reflexivity. }
    + intros [| b r] Hlen; cbn [RLP.decodeItems]; [answered |].
      simpl List.length in Hlen.
      destruct (IHd (b :: r)) as [Hf Hshort];
        [discriminate | simpl List.length; lia |].
      apply bind_fueled; [exact Hf |].
      intros d Hd. apply Hshort in Hd. simpl List.length in Hd.
      apply bind_fueled; [apply IHi; lia |].
      intros; answered.
Qed.

(** [RLP.decode] always answers: a value or one of the failures of the
    decoder, never the bound of the recursion. *)
Lemma decode_total (input : bytes) : fueled (RLP.decode input).
Proof.
  unfold RLP.decode. destruct input as [| b input]; [answered |].
  apply bind_fueled.
  - apply (proj1 (decode_fuel _)); [discriminate | lia].
  - intros d _. destruct (snd d); answered.
Qed.

(** ** Reading back an account sent with partial information *)

(** C1.  An account built by [createPartialAccount] with the nonce 5 (however
    the 5 is written) and the five other fields [null], serialised by
    [serializeWithPartialInfo] and read back by [createPartialAccountFromRLP],
    is an account whose nonce reads 5 and whose balance, storage root, code
    hash, code size and version all fail as not loaded. *)
Theorem partial_round_trip_nonce_5 :
  Forall (fun n =>
            exists a b,
              createPartialAccount
                (mkPartialAccountData (Value n) Null Null Null Null Null) = Ok a
              /\ createPartialAccountFromRLP (serializeWithPartialInfo a) = Ok b
              /\ nonce b = Ok 5
              /\ balance b = Throw (notLoadedError "balance")
              /\ storageRoot b = Throw (notLoadedError "storageRoot")
              /\ codeHash b = Throw (notLoadedError "codeHash")
              /\ codeSize b = Throw (notLoadedError "codeSize")
              /\ version b = Throw (notLoadedError "version"))
         five.
Proof.
  unfold five.
  repeat (apply Forall_cons || apply Forall_nil);
    (exists (mkAccount (Some 5) None None None None None);
     exists (mkAccount (Some 5) None None None None None);
     repeat split; vm_compute; reflexivity).
Qed.

(** ** Emptiness of an account whose nonce is not loaded *)

(** C2, as the specification states it, fails: an account whose nonce is
    [null] and whose balance is 1 can be constructed, and [isEmpty] answers
    [false] on it: the test on the balance decides before the nonce is
    read. *)
Lemma isEmpty_nonce_absent_counterexample :
  constructor Null (Value 1) Null Null Null Null
    = Ok (mkAccount None (Some 1) None None None None)
  /\ _nonce (mkAccount None (Some 1) None None None None) = None
  /\ isEmpty (mkAccount None (Some 1) None None None None) = Ok false.
Proof. repeat split. Qed.

(** C2, amended.  On an account whose nonce is [null], [isEmpty] answers
    [false] when the balance is loaded and not zero, and otherwise (balance
    [null] or zero) fails as the read of the nonce does, not loaded. *)
Theorem isEmpty_nonce_absent (this : Account) :
  _nonce this = None ->
  isEmpty this =
    match _balance this with
    | Some b => if b =? 0 then Throw (notLoadedError "nonce") else Ok false
    | None => Throw (notLoadedError "nonce")
    end
  /\ NotLoaded (notLoadedError "nonce").
Proof.
  intros Hn. split; [| now exists "nonce"].
  destruct this as [n b r h cs ver]; simpl in Hn; subst n.
  unfold isEmpty; simpl.
  destruct b as [b |]; simpl; [| reflexivity].
  unfold BIGINT_0. destruct (b =? 0); reflexivity.
Qed.

Lemma isEmpty_nonce_absent_witness :
  isEmpty (mkAccount None (Some 0) (Some KECCAK256_RLP) (Some KECCAK256_NULL)
             (Some 0) (Some 0))
  = Throw (notLoadedError "nonce").
Proof.
  exact (proj1 (isEmpty_nonce_absent
                  (mkAccount None (Some 0) (Some KECCAK256_RLP)
                     (Some KECCAK256_NULL) (Some 0) (Some 0))
                  eq_refl)).
Defined.

(** ** The presence indicator of a partial field *)

Lemma bytesToInt_safe (b : bytes) :
  bytesToBigInt b <= MAX_SAFE_INTEGER -> bytesToInt b = Ok (bytesToBigInt b).
Proof.
  intros H. unfold bytesToInt. cbv zeta.
  destruct (Z.ltb_spec MAX_SAFE_INTEGER (bytesToBigInt b)); [lia | reflexivity].
Qed.

Lemma bytesToInt_unsafe (b : bytes) :
  MAX_SAFE_INTEGER < bytesToBigInt b ->
  bytesToInt b = Throw (EthereumJSErrorWithoutCode "Number exceeds 53 bits").
Proof.
  intros H. unfold bytesToInt. cbv zeta.
  destruct (Z.ltb_spec MAX_SAFE_INTEGER (bytesToBigInt b)); [reflexivity | lia].
Qed.

(** C4, as the specification states it, fails: the seven bytes 0x20, 0, 0, 0,
    0, 0, 0 read as [2 ^ 53], an integer greater than 1, and on them the
    failure is "Number exceeds 53 bits", not "Invalid isNullIndicator=" and
    the number: the indicator is read as a number, and [bytesToInt] refuses
    what no number holds exactly. *)
Lemma handleNullIndicator_53_bits_counterexample :
  bytesToBigInt [x20; x00; x00; x00; x00; x00; x00] = 2 ^ 53
  /\ handleNullIndicator
       [RBytes [x20; x00; x00; x00; x00; x00; x00]; RBytes [x07]]
     = Throw (EthereumJSErrorWithoutCode "Number exceeds 53 bits")
  /\ handleNullIndicator
       [RBytes [x20; x00; x00; x00; x00; x00; x00]; RBytes [x07]]
     <> Throw (EthereumJSErrorWithoutCode
                 "Invalid isNullIndicator=9007199254740992").
Proof. repeat split; vm_compute; discriminate. Qed.

(** C4, amended.  On a per-field list: no first element, or a first element
    that reads as 0, gives [null]; a first element that reads as 1 gives the
    second element, and fails with "Invalid values length=1" when there is
    none; a first element that reads as more than 1 and at most
    [MAX_SAFE_INTEGER] fails with "Invalid isNullIndicator=" and the number;
    a first element that reads as more than [MAX_SAFE_INTEGER] fails with
    "Number exceeds 53 bits".  The three failures are invalid input. *)
Theorem handleNullIndicator_cases (values : list NestedUint8Array) :
  (values = [] -> handleNullIndicator values = Ok None)
  /\ (forall first rest,
        values = RBytes first :: rest ->
        bytesToBigInt first = 0 ->
        handleNullIndicator values = Ok None)
  /\ (forall first second rest,
        values = RBytes first :: second :: rest ->
        bytesToBigInt first = 1 ->
        handleNullIndicator values = Ok (Some second))
  /\ (forall first,
        values = [RBytes first] ->
        bytesToBigInt first = 1 ->
        handleNullIndicator values
          = Throw (EthereumJSErrorWithoutCode "Invalid values length=1")
        /\ InvalidInput (EthereumJSErrorWithoutCode "Invalid values length=1"))
  /\ (forall first rest,
        values = RBytes first :: rest ->
        1 < bytesToBigInt first <= MAX_SAFE_INTEGER ->
        handleNullIndicator values
          = Throw (EthereumJSErrorWithoutCode
                     ("Invalid isNullIndicator="
                        ++ toString (bytesToBigInt first)))
        /\ InvalidInput (EthereumJSErrorWithoutCode
                           ("Invalid isNullIndicator="
                              ++ toString (bytesToBigInt first))))
  /\ (forall first rest,
        values = RBytes first :: rest ->
        MAX_SAFE_INTEGER < bytesToBigInt first ->
        handleNullIndicator values
          = Throw (EthereumJSErrorWithoutCode "Number exceeds 53 bits")
        /\ InvalidInput (EthereumJSErrorWithoutCode "Number exceeds 53 bits")).
Proof.
  assert (Hmax : MAX_SAFE_INTEGER = 9007199254740991) by reflexivity.
  split; [| split; [| split; [| split; [| split]]]].
  - intros ->. reflexivity.
  - intros first rest -> H0. unfold handleNullIndicator.
    cbn [nth_error asUint8Array bind].
    rewrite bytesToInt_safe by lia. rewrite H0. reflexivity.
  - intros first second rest -> H1. unfold handleNullIndicator.
    cbn [nth_error asUint8Array bind].
    rewrite bytesToInt_safe by lia. rewrite H1. reflexivity.
  - intros first -> H1. unfold handleNullIndicator.
    cbn [nth_error asUint8Array bind].
    rewrite bytesToInt_safe by lia. rewrite H1.
    split; [reflexivity | eexists; reflexivity].
  - intros first rest -> [Hlo Hhi]. unfold handleNullIndicator.
    cbn [nth_error asUint8Array bind].
    rewrite bytesToInt_safe by lia. cbn [bind].
    destruct (Z.eqb_spec (bytesToBigInt first) 0); [lia |].
    destruct (Z.ltb_spec 1 (bytesToBigInt first)); [| lia].
    split; [reflexivity | eexists; reflexivity].
  - intros first rest -> Hbig. unfold handleNullIndicator.
    cbn [nth_error asUint8Array bind].
    rewrite bytesToInt_unsafe by exact Hbig.
    split; [reflexivity | eexists; reflexivity].
Qed.

Lemma handleNullIndicator_cases_witness :
  handleNullIndicator [] = Ok None
  /\ handleNullIndicator [RBytes []; RBytes [x07]] = Ok None
  /\ handleNullIndicator [RBytes [x00; x00]] = Ok None
  /\ handleNullIndicator [RBytes [x01]; RBytes [x07]] = Ok (Some (RBytes [x07]))
  /\ handleNullIndicator [RBytes [x01]]
     = Throw (EthereumJSErrorWithoutCode "Invalid values length=1")
  /\ handleNullIndicator [RBytes [x02]; RBytes [x07]]
     = Throw (EthereumJSErrorWithoutCode "Invalid isNullIndicator=2")
  /\ handleNullIndicator [RBytes [x20; x00; x00; x00; x00; x00; x01]]
     = Throw (EthereumJSErrorWithoutCode "Number exceeds 53 bits").
Proof.
  split; [| split; [| split; [| split; [| split; [| split]]]]].
  - apply (proj1 (handleNullIndicator_cases [])). reflexivity.
  - apply (proj1 (proj2 (handleNullIndicator_cases [RBytes []; RBytes [x07]]))
             [] [RBytes [x07]]); reflexivity.
  - apply (proj1 (proj2 (handleNullIndicator_cases [RBytes [x00; x00]]))
             [x00; x00] []); reflexivity.
  - apply (proj1 (proj2 (proj2 (handleNullIndicator_cases
                                  [RBytes [x01]; RBytes [x07]])))
             [x01] (RBytes [x07]) []); reflexivity.
  - apply (proj1 (proj2 (proj2 (proj2 (handleNullIndicator_cases [RBytes [x01]]))))
             [x01]); reflexivity.
  - apply (proj1 (proj2 (proj2 (proj2 (proj2 (handleNullIndicator_cases
                                         [RBytes [x02]; RBytes [x07]])))))
             [x02] [RBytes [x07]]);
      [reflexivity | vm_compute; split; [reflexivity | discriminate]].
  - apply (proj2 (proj2 (proj2 (proj2 (proj2 (handleNullIndicator_cases
                   [RBytes [x20; x00; x00; x00; x00; x00; x01]])))))
             [x20; x00; x00; x00; x00; x00; x01] []);
      [reflexivity | vm_compute; reflexivity].
Defined.

(** ** CREATE2 addresses *)

(** C5.  [generateAddress2] makes two checks in order: it fails with
    "Expected from to be of length 20" whenever the creator is not 20 bytes
    long, and then, the creator being 20 bytes long, with "Expected salt to be
    of length 32" whenever the salt is not 32 bytes long; both are invalid
    input.  With 20 and 32 bytes it returns the last 20 bytes of the
    Keccak-256 hash of the byte 0xff, the creator, the salt and the hash of
    the init code, in this order. *)
Theorem generateAddress2_cases (from salt initCode : bytes) :
  (List.length from <> 20%nat ->
   generateAddress2 from salt initCode
     = Throw (EthereumJSErrorWithoutCode "Expected from to be of length 20"))
  /\ (List.length from = 20%nat ->
      List.length salt <> 32%nat ->
      generateAddress2 from salt initCode
        = Throw (EthereumJSErrorWithoutCode "Expected salt to be of length 32"))
  /\ (List.length from = 20%nat ->
      List.length salt = 32%nat ->
      generateAddress2 from salt initCode
        = Ok (subarrayLast 20
                (keccak_256 ([xff] ++ from ++ salt ++ keccak_256 initCode))))
  /\ (forall e, generateAddress2 from salt initCode = Throw e -> InvalidInput e).
Proof.
  unfold generateAddress2.
  repeat split.
  - intros H. apply Nat.eqb_neq in H. rewrite H. reflexivity.
  - intros Hf Hs. apply Nat.eqb_eq in Hf. apply Nat.eqb_neq in Hs.
    rewrite Hf, Hs. reflexivity.
  - intros Hf Hs. apply Nat.eqb_eq in Hf. apply Nat.eqb_eq in Hs.
    rewrite Hf, Hs. simpl negb. cbv iota.
    unfold concatBytes. simpl List.concat. rewrite app_nil_r. reflexivity.
  - intros e.
    destruct (Nat.eqb (List.length from) 20); simpl;
      [destruct (Nat.eqb (List.length salt) 32); simpl |];
      intros H; inversion H; eexists; reflexivity.
Qed.

(** The example of EIP-1014: creator 0x…deadbeef, salt 0x…cafebabe, init code
    0xdeadbeef. *)
Lemma generateAddress2_cases_witness :
  option_map bytesToHex
    (match generateAddress2
             (hexToBytes "0x00000000000000000000000000000000deadbeef")
             (hexToBytes "0x00000000000000000000000000000000000000000000000000000000cafebabe")
             (hexToBytes "0xdeadbeef") with
     | Ok a => Some a
     | Throw _ => None
     end)
  = Some "0x60f3f640a8508fc6a86d45df051962668e1e8ac7"
  /\ generateAddress2 [x01] (repeat x00 32) []
     = Throw (EthereumJSErrorWithoutCode "Expected from to be of length 20")
  /\ generateAddress2 (repeat x00 20) [x01] []
     = Throw (EthereumJSErrorWithoutCode "Expected salt to be of length 32").
Proof.
  split; [| split].
  - rewrite (proj1 (proj2 (proj2 (generateAddress2_cases
               (hexToBytes "0x00000000000000000000000000000000deadbeef")
               (hexToBytes "0x00000000000000000000000000000000000000000000000000000000cafebabe")
               (hexToBytes "0xdeadbeef")))));
      vm_compute; reflexivity.
  - apply (proj1 (generateAddress2_cases [x01] (repeat x00 32) [])).
    vm_compute. discriminate.
  - apply (proj1 (proj2 (generateAddress2_cases (repeat x00 20) [x01] []))).
    + vm_compute. reflexivity.
    + vm_compute. discriminate.
Defined.

(** ** CREATE addresses *)

(** C6.  When the nonce bytes read as 0, [generateAddress] is the last 20
    bytes of the hash of the RLP encoding of the creator and the empty byte
    string; otherwise of the creator and the nonce bytes as they are.  The
    single byte 0 reads as 0 and gives the address of the empty nonce; the
    bytes 0, 1 are not minimal, and give another address than the byte 1. *)
Theorem generateAddress_cases (from nonce : bytes) :
  (bytesToBigInt nonce = 0 ->
   generateAddress from nonce
     = subarrayLast 20
         (keccak_256 (RLP.encode (RList [RBytes from; RBytes []]))))
  /\ (bytesToBigInt nonce <> 0 ->
      generateAddress from nonce
        = subarrayLast 20
            (keccak_256 (RLP.encode (RList [RBytes from; RBytes nonce]))))
  /\ generateAddress from [x00] = generateAddress from []
  /\ generateAddress [] [x00; x01] <> generateAddress [] [x01].
Proof.
  unfold generateAddress, BIGINT_0.
  repeat split.
  - intros H. rewrite H. reflexivity.
  - intros H. apply Z.eqb_neq in H. rewrite H. reflexivity.
  - vm_compute. discriminate.
Qed.

(** The addresses of the creator 0x990c…1c39 at the nonces 0 (written as the
    byte 0) and 14. *)
Lemma generateAddress_cases_witness :
  bytesToHex
    (generateAddress (hexToBytes "0x990ccf8a0de58091c028d6ff76bb235ee67c1c39") [x00])
  = "0xbfa69ba91385206bfdd2d8b9c1a5d6c10097a85b"
  /\ bytesToHex
       (generateAddress (hexToBytes "0x990ccf8a0de58091c028d6ff76bb235ee67c1c39") [x0e])
     = "0xd658a4b8247c14868f3c512fa5cbb6e458e4a989".
Proof.
  split.
  - rewrite (proj1 (generateAddress_cases
               (hexToBytes "0x990ccf8a0de58091c028d6ff76bb235ee67c1c39") [x00]));
      vm_compute; reflexivity.
  - rewrite (proj1 (proj2 (generateAddress_cases
               (hexToBytes "0x990ccf8a0de58091c028d6ff76bb235ee67c1c39") [x0e])));
      vm_compute; [reflexivity | discriminate].
Defined.

(** ** Validation at construction *)

Lemma check_Ok (bad : bool) (msg : string) :
  check bad msg = Ok tt <-> bad = false.
Proof. destruct bad; simpl; split; congruence. Qed.

Lemma check_Throw (bad : bool) (msg : string) (e : error) :
  check bad msg = Throw e -> bad = true /\ e = EthereumJSErrorWithoutCode msg.
Proof. destruct bad; simpl; intros H; inversion H; auto. Qed.

Lemma _validate_InvalidInput (this : Account) (e : error) :
  _validate this = Throw e -> InvalidInput e.
Proof.
  unfold _validate, bind.
  repeat match goal with
         | |- context [check ?b ?m] =>
             let E := fresh "E" in
             destruct (check b m) as [[] | e'] eqn:E;
             [| apply check_Throw in E; destruct E as [_ ->];
                intros H; inversion H; eexists; reflexivity]
         end.
  discriminate.
Qed.

Lemma _validate_Throw_iff (this : Account) :
  (exists e, _validate this = Throw e)
  <-> boundViolated (_nonce this) (_balance this) (_storageRoot this)
        (_codeHash this) (_codeSize this).
Proof.
  destruct this as [n b r h cs ver]. unfold _validate, boundViolated, BIGINT_0.
  simpl.
  split.
  - intros [e H].
    destruct n as [n |]; [destruct (Z.ltb_spec n 0) |];
      try (left; eexists; split; [reflexivity | assumption]);
      (destruct b as [b |]; [destruct (Z.ltb_spec b 0) |];
       try (right; left; eexists; split; [reflexivity | assumption]);
       (destruct r as [r |];
        [destruct (Nat.eqb_spec (List.length r) 32) |];
        try (right; right; left; eexists; split; [reflexivity | assumption]);
        (destruct h as [h |];
         [destruct (Nat.eqb_spec (List.length h) 32) |];
         try (right; right; right; left; eexists; split;
              [reflexivity | assumption]);
         (destruct cs as [cs |]; [destruct (Z.ltb_spec cs 0) |];
          try (right; right; right; right; eexists; split;
               [reflexivity | assumption]);
          simpl in H; discriminate)))).
  - intros [[x [E L]] | [[x [E L]] | [[x [E L]] | [[x [E L]] | [x [E L]]]]]];
      inversion E; subst.
    + apply Z.ltb_lt in L. rewrite L. simpl. eexists; reflexivity.
    + destruct (check _ "nonce must be greater than zero");
        [| eexists; reflexivity].
      simpl. apply Z.ltb_lt in L. rewrite L. simpl. eexists; reflexivity.
    + destruct (check _ "nonce must be greater than zero");
        [| eexists; reflexivity].
      simpl. destruct (check _ "balance must be greater than zero");
        [| eexists; reflexivity].
      simpl. apply Nat.eqb_neq in L. rewrite L. simpl. eexists; reflexivity.
    + destruct (check _ "nonce must be greater than zero");
        [| eexists; reflexivity].
      simpl. destruct (check _ "balance must be greater than zero");
        [| eexists; reflexivity].
      simpl. destruct (check _ "storageRoot must have a length of 32");
        [| eexists; reflexivity].
      simpl. apply Nat.eqb_neq in L. rewrite L. simpl. eexists; reflexivity.
    + destruct (check _ "nonce must be greater than zero");
        [| eexists; reflexivity].
      simpl. destruct (check _ "balance must be greater than zero");
        [| eexists; reflexivity].
      simpl. destruct (check _ "storageRoot must have a length of 32");
        [| eexists; reflexivity].
      simpl. destruct (check _ "codeHash must have a length of 32");
        [| eexists; reflexivity].
      simpl. apply Z.ltb_lt in L. rewrite L. simpl. eexists; reflexivity.
Qed.

(** The constructor assigns the fields and validates: settling the code size
    never fails. *)
Lemma constructor_unfold (nonce balance : arg Z) (storageRoot codeHash : arg bytes)
    (codeSize version : arg Z) :
  constructor nonce balance storageRoot codeHash codeSize version =
    let this :=
      mkAccount (orDefault 0 nonce) (orDefault 0 balance)
        (orDefault KECCAK256_RLP storageRoot) (orDefault KECCAK256_NULL codeHash)
        (storedCodeSize (orDefault KECCAK256_NULL codeHash) (orDefault 0 codeSize))
        (orDefault 0 version) in
    _ <- _validate this ;; Ok this.
Proof.
  unfold constructor, storedCodeSize, BIGINT_0.
  destruct (orDefault 0 codeSize) as [cs |]; simpl; [reflexivity |].
  destruct (orDefault KECCAK256_NULL codeHash) as [h |]; simpl; [| reflexivity].
  rewrite orb_false_r, negb_involutive.
  destruct (equalsBytes h KECCAK256_NULL); reflexivity.
Qed.

Lemma boundViolated_storedCodeSize (n b : option Z) (r h : option bytes)
    (cs : option Z) :
  boundViolated n b r h (storedCodeSize h cs) <-> boundViolated n b r h cs.
Proof.
  unfold boundViolated, storedCodeSize.
  destruct cs as [cs |]; [tauto |].
  destruct h as [h |]; [| tauto].
  destruct (equalsBytes h KECCAK256_NULL); [| tauto].
  split; intros [H | [H | [H | [H | [x [E L]]]]]]; auto 6;
    inversion E; subst; lia.
Qed.

(** C7.  With the arguments left out taking their defaults, the constructor
    fails exactly when a field that is there is out of its bound (a negative
    nonce, balance or code size, a storage root or code hash not of 32 bytes);
    every failure is invalid input; [null] fields are not checked, so that
    with every field [null] or in its bound the account is built, with the
    fields as given. *)
Theorem constructor_fails_iff (nonce balance : arg Z)
    (storageRoot codeHash : arg bytes) (codeSize version : arg Z) :
  let n := orDefault 0 nonce in
  let b := orDefault 0 balance in
  let r := orDefault KECCAK256_RLP storageRoot in
  let h := orDefault KECCAK256_NULL codeHash in
  let cs := orDefault 0 codeSize in
  ((exists e, constructor nonce balance storageRoot codeHash codeSize version
              = Throw e)
   <-> boundViolated n b r h cs)
  /\ (forall e,
        constructor nonce balance storageRoot codeHash codeSize version = Throw e ->
        InvalidInput e)
  /\ (~ boundViolated n b r h cs ->
      constructor nonce balance storageRoot codeHash codeSize version
        = Ok (mkAccount n b r h (storedCodeSize h cs) (orDefault 0 version))).
Proof.
  intros n b r h cs.
  rewrite constructor_unfold. fold n b r h cs.
  set (this := mkAccount n b r h (storedCodeSize h cs) (orDefault 0 version)).
  pose proof (_validate_Throw_iff this) as Hiff. simpl in Hiff.
  rewrite boundViolated_storedCodeSize in Hiff.
  cbv zeta.
  destruct (_validate this) as [[] | e0] eqn:Hv; simpl.
  - split; [| split].
    + split.
      * intros [e He]. discriminate.
      * intros Hb. apply Hiff in Hb. destruct Hb as [e He]. discriminate.
    + intros e He. discriminate.
    + reflexivity.
  - split; [| split].
    + split.
      * intros _. apply Hiff. now exists e0.
      * intros _. now exists e0.
    + intros e He. inversion He; subst.
      apply (_validate_InvalidInput this). exact Hv.
    + intros Hb. exfalso. apply Hb. apply Hiff. now exists e0.
Qed.

Lemma constructor_fails_iff_witness :
  constructor Null Null Null Null Null Null
    = Ok (mkAccount None None None None None None)
  /\ constructor Undefined (Value 7) Null (Value KECCAK256_NULL) Null (Value (-1))
     = Ok (mkAccount (Some 0) (Some 7) None (Some KECCAK256_NULL) (Some 0)
             (Some (-1)))
  /\ exists e,
       constructor (Value (-1)) Null Null Null Null Null = Throw e.
Proof.
  split; [| split].
  - apply (proj2 (proj2 (constructor_fails_iff Null Null Null Null Null Null))).
    intros [[x [E L]] | [[x [E L]] | [[x [E L]] | [[x [E L]] | [x [E L]]]]]];
      discriminate.
  - apply (proj2 (proj2 (constructor_fails_iff Undefined (Value 7) Null
                           (Value KECCAK256_NULL) Null (Value (-1))))).
    intros [[x [E L]] | [[x [E L]] | [[x [E L]] | [[x [E L]] | [x [E L]]]]]];
      inversion E; subst; try lia.
    apply L. reflexivity.
  - apply (proj1 (constructor_fails_iff (Value (-1)) Null Null Null Null Null)).
    left. exists (-1). split; [reflexivity | lia].
Defined.

(** ** The slim account body *)

Lemma byte_eqb_eq (a b : byte) : byte_eqb a b = true <-> a = b.
Proof.
  unfold byte_eqb. split; [apply Byte.byte_dec_bl | apply Byte.byte_dec_lb].
Qed.

Lemma equalsBytes_eq (a b : bytes) : equalsBytes a b = true <-> a = b.
Proof.
  revert b. induction a as [| x a IH]; intros [| y b]; simpl;
    try (split; [discriminate | discriminate]); [tauto |].
  rewrite andb_true_iff, byte_eqb_eq, IH.
  split; [intros [-> ->]; reflexivity | intros H; inversion H; auto].
Qed.

Lemma equalsBytes_neq (a b : bytes) : equalsBytes a b = false <-> a <> b.
Proof.
  rewrite <- equalsBytes_eq. destruct (equalsBytes a b); split; congruence.
Qed.

(** C8.  On a body whose storage root and code hash are each the default
    constant or 32 other bytes, [accountBodyFromSlim] undoes
    [accountBodyToSlim]; and on any body [accountBodyToSlim] puts the empty
    byte string for the storage root when it equals the empty-trie root, for
    the code hash when it equals the hash of no code, and changes nothing
    else. *)
Theorem slim_round_trip (nonce balance storageRoot codeHash : bytes) :
  (defaultOr32 KECCAK256_RLP storageRoot ->
   defaultOr32 KECCAK256_NULL codeHash ->
   accountBodyFromSlim (accountBodyToSlim (nonce, balance, storageRoot, codeHash))
     = (nonce, balance, storageRoot, codeHash))
  /\ (exists storageRoot' codeHash',
        accountBodyToSlim (nonce, balance, storageRoot, codeHash)
          = (nonce, balance, storageRoot', codeHash')
        /\ (storageRoot = KECCAK256_RLP -> storageRoot' = [])
        /\ (storageRoot <> KECCAK256_RLP -> storageRoot' = storageRoot)
        /\ (codeHash = KECCAK256_NULL -> codeHash' = [])
        /\ (codeHash <> KECCAK256_NULL -> codeHash' = codeHash)).
Proof.
  split.
  - intros Hr Hh. unfold accountBodyToSlim, accountBodyFromSlim, emptyUint8Arr.
    destruct Hr as [-> | [Lr Nr]]; destruct Hh as [-> | [Lh Nh]];
      try (apply equalsBytes_neq in Nr; rewrite Nr);
      try (apply equalsBytes_neq in Nh; rewrite Nh);
      try rewrite Lr; try rewrite Lh; reflexivity.
  - unfold accountBodyToSlim, emptyUint8Arr.
    eexists; eexists. split; [reflexivity |].
    repeat split.
    + intros ->. reflexivity.
    + intros N. apply equalsBytes_neq in N. rewrite N. reflexivity.
    + intros ->. reflexivity.
    + intros N. apply equalsBytes_neq in N. rewrite N. reflexivity.
Qed.

Lemma slim_round_trip_witness :
  accountBodyFromSlim
    (accountBodyToSlim ([x01], [], KECCAK256_RLP, repeat x11 32))
  = ([x01], [], KECCAK256_RLP, repeat x11 32).
Proof.
  apply (proj1 (slim_round_trip [x01] [] KECCAK256_RLP (repeat x11 32))).
  - left. reflexivity.
  - right. split; [reflexivity | discriminate].
Defined.

(** ** The y-parity *)

(** C9.  [validateYParity] accepts a transaction whose [v] is [undefined], 0
    or 1, and fails on any other [v] (2, 27 and 28 among them) with the
    message made of "The y-parity of the transaction should either be 0 or
    1", as invalid input.  The transaction is left as it was. *)
Theorem validateYParity_cases
    (errorMsg : EIP2718CompatibleTx -> string -> string)
    (tx : EIP2718CompatibleTx) :
  let failure :=
    EthereumJSErrorWithoutCode
      (errorMsg tx "The y-parity of the transaction should either be 0 or 1") in
  (v tx = None \/ v tx = Some 0 \/ v tx = Some 1 ->
   fst (validateYParity errorMsg tx) = Ok tt)
  /\ (forall y,
        v tx = Some y -> y <> 0 -> y <> 1 ->
        fst (validateYParity errorMsg tx) = Throw failure)
  /\ (v tx = Some 2 \/ v tx = Some 27 \/ v tx = Some 28 ->
      fst (validateYParity errorMsg tx) = Throw failure)
  /\ InvalidInput failure
  /\ snd (validateYParity errorMsg tx) = tx.
Proof.
  intros failure. unfold failure, validateYParity, BIGINT_0, BIGINT_1.
  split; [| split; [| split; [| split]]].
  - intros [H | [H | H]]; rewrite H; reflexivity.
  - intros y H H0 H1. rewrite H.
    apply Z.eqb_neq in H0. apply Z.eqb_neq in H1. rewrite H0, H1. reflexivity.
  - intros [H | [H | H]]; rewrite H; reflexivity.
  - eexists; reflexivity.
  - destruct (v tx) as [y |]; [| reflexivity].
    destruct (negb (y =? 0) && negb (y =? 1)); reflexivity.
Qed.

(** A transaction of type 2 with the legacy recovery identifier 27, with the
    message of a failure written as the text, a space and [errorStr()] in
    brackets. *)
Lemma validateYParity_cases_witness :
  fst (validateYParity
         (fun tx msg => msg ++ " (" ++ errorStr tx ++ ")")%string
         (mkTx 2 (Some 27) "tx type=2"))
  = Throw (EthereumJSErrorWithoutCode
             "The y-parity of the transaction should either be 0 or 1 (tx type=2)")
  /\ fst (validateYParity
            (fun tx msg => msg ++ " (" ++ errorStr tx ++ ")")%string
            (mkTx 2 (Some 1) "tx type=2"))
     = Ok tt.
Proof.
  split.
  - apply (proj1 (proj2 (validateYParity_cases
                           (fun tx msg => msg ++ " (" ++ errorStr tx ++ ")")%string
                           (mkTx 2 (Some 27) "tx type=2")))
             27); [reflexivity | discriminate | discriminate].
  - apply (proj1 (validateYParity_cases
                    (fun tx msg => msg ++ " (" ++ errorStr tx ++ ")")%string
                    (mkTx 2 (Some 1) "tx type=2"))).
    right. right. reflexivity.
Defined.

(** ** Checksummed addresses *)

Lemma append_empty_r (s : string) : (s ++ "")%string = s.
Proof. induction s; simpl; congruence. Qed.

Lemma append_assoc (a b c : string) :
  ((a ++ b) ++ c)%string = (a ++ (b ++ c))%string.
Proof. induction a; simpl; congruence. Qed.

Lemma length_append (a b : string) :
  String.length (a ++ b) = (String.length a + String.length b)%nat.
Proof. induction a; simpl; congruence. Qed.

Lemma get_append_length (pre suf : string) (c : ascii) :
  String.get (String.length pre) (pre ++ String c suf) = Some c.
Proof. induction pre; simpl; auto. Qed.

Lemma slice_slice_1 (n : nat) (s : string) : slice 1 (slice n s) = slice (S n) s.
Proof.
  revert s. induction n as [| n IH]; intros s.
  - destruct s; reflexivity.
  - destruct s as [| c s]; [reflexivity |]. simpl slice at 2. rewrite IH.
    reflexivity.
Qed.

Lemma get_slice (n i : nat) (s : string) :
  String.get i (slice n s) = String.get (n + i) s.
Proof.
  revert s. induction n as [| n IH]; intros s.
  - destruct s; reflexivity.
  - destruct s as [| c s]; [destruct i; reflexivity |]. simpl. apply IH.
Qed.

(** The loop of [toChecksumAddress], from any point on. *)
Lemma checksum_loop (suf pre acc hash : string) :
  fold_left
    (fun ret i => (ret ++ checksumStep (pre ++ suf) hash i)%string)
    (seq (String.length pre) (String.length suf)) acc
  = (acc ++ caseAdjust suf (slice (String.length pre) hash))%string.
Proof.
  revert pre acc. induction suf as [| c suf IH]; intros pre acc.
  - simpl. symmetry. apply append_empty_r.
  - simpl String.length. simpl seq. simpl fold_left.
    unfold checksumStep at 2. rewrite get_append_length.
    specialize (IH (pre ++ String c "")%string).
    rewrite append_assoc in IH. simpl append in IH.
    rewrite length_append in IH. simpl String.length in IH.
    rewrite Nat.add_1_r in IH. rewrite IH.
    cbn [caseAdjust]. rewrite slice_slice_1, get_slice, Nat.add_0_r.
    destruct (geNumber (parseInt16 (String.get (String.length pre) hash)) 8);
      rewrite append_assoc; reflexivity.
Qed.

Lemma checksum_loop_all (address hash : string) :
  fold_left (fun ret i => (ret ++ checksumStep address hash i)%string)
    (seq 0 (String.length address)) ""
  = caseAdjust address hash.
Proof.
  pose proof (checksum_loop address "" "" hash) as H. simpl in H.
  rewrite H. destruct hash; reflexivity.
Qed.

Lemma slice_2_bytesToHex (b : bytes) : slice 2 (bytesToHex b) = unprefixedHex b.
Proof. reflexivity. Qed.

(** [toChecksumAddress] on a well-formed hex string, in closed form. *)
Lemma toChecksumAddress_hex (body : string) (eip1191ChainId : option BigIntLike) :
  allHexChars body = true ->
  toChecksumAddress (String "0" (String "x" body)) eip1191ChainId =
    (prefix <- match eip1191ChainId with
               | Some id =>
                   b <- toBytes id ;;
                   Ok (toString (bytesToBigInt b) ++ "0x")%string
               | None => Ok ""
               end ;;
     Ok (String "0" (String "x"
           (caseAdjust (toLowerCase body)
              (unprefixedHex
                 (keccak_256 (utf8ToBytes (prefix ++ toLowerCase body))))))))%string.
Proof.
  intros Hhex. unfold toChecksumAddress, assertIsHexString, stripHexPrefix.
  simpl isHexString. rewrite Hhex. cbn [bind].
  change (slice 2 (String "0" (String "x" body))) with body.
  destruct (match eip1191ChainId with
            | Some id =>
                b <- toBytes id ;;
                Ok (toString (bytesToBigInt b) ++ "0x")%string
            | None => Ok ""
            end) as [prefix | e]; cbn [bind]; [| reflexivity].
  rewrite slice_2_bytesToHex, checksum_loop_all. reflexivity.
Qed.

Lemma toLower_idem (c : ascii) : toLowerChar (toLowerChar c) = toLowerChar c.
Proof. destruct c as [[] [] [] [] [] [] [] []]; reflexivity. Qed.

Lemma toLower_toUpper_toLower (c : ascii) :
  toLowerChar (toUpperChar (toLowerChar c)) = toLowerChar c.
Proof. destruct c as [[] [] [] [] [] [] [] []]; reflexivity. Qed.

Lemma isHexChar_toLower (c : ascii) :
  isHexChar c = true -> isHexChar (toLowerChar c) = true.
Proof. destruct c as [[] [] [] [] [] [] [] []]; vm_compute; auto. Qed.

Lemma isHexChar_toUpper (c : ascii) :
  isHexChar c = true -> isHexChar (toUpperChar c) = true.
Proof. destruct c as [[] [] [] [] [] [] [] []]; vm_compute; auto. Qed.

Lemma allHexChars_toLowerCase (s : string) :
  allHexChars s = true -> allHexChars (toLowerCase s) = true.
Proof.
  unfold toLowerCase.
  induction s as [| c s IH]; cbn [mapString allHexChars]; [auto |].
  rewrite !andb_true_iff. intros [Hc Hs].
  split; [apply isHexChar_toLower; exact Hc | apply IH; exact Hs].
Qed.

Lemma allHexChars_caseAdjust (address hash : string) :
  allHexChars address = true -> allHexChars (caseAdjust address hash) = true.
Proof.
  revert hash.
  induction address as [| c a IH]; intros hash; cbn [caseAdjust allHexChars];
    [auto |].
  rewrite !andb_true_iff. intros [Hc Ha]. split; [| apply IH; exact Ha].
  destruct (geNumber _ 8); [apply isHexChar_toUpper |]; exact Hc.
Qed.

(** Lowercasing the adjusted characters of a lowercased string gives that
    string back. *)
Lemma toLowerCase_caseAdjust (body hash : string) :
  toLowerCase (caseAdjust (toLowerCase body) hash) = toLowerCase body.
Proof.
  unfold toLowerCase. revert hash.
  induction body as [| c s IH]; intros hash; cbn [mapString caseAdjust];
    [reflexivity |].
  rewrite IH. f_equal.
  destruct (geNumber _ 8);
    [apply toLower_toUpper_toLower | apply toLower_idem].
Qed.

Lemma isHexString_inv (s : string) :
  isHexString s = true ->
  exists body, s = String "0" (String "x" body) /\ allHexChars body = true.
Proof.
  destruct s as [| c0 [| c1 body]]; simpl; try discriminate.
  - destruct c0 as [[] [] [] [] [] [] [] []]; discriminate.
  - destruct c0 as [[] [] [] [] [] [] [] []]; try discriminate.
    destruct c1 as [[] [] [] [] [] [] [] []]; try discriminate.
    intros H. exists body. split; [reflexivity | exact H].
Qed.

(** C10.  Whenever [toChecksumAddress] returns, applying it again with the
    same chain id to what it returned returns the same string. *)
Theorem toChecksumAddress_idempotent (hexAddress : string)
    (eip1191ChainId : option BigIntLike) (checksummed : string) :
  toChecksumAddress hexAddress eip1191ChainId = Ok checksummed ->
  toChecksumAddress checksummed eip1191ChainId = Ok checksummed.
Proof.
  intros H.
  assert (Hhex : isHexString hexAddress = true).
  { unfold toChecksumAddress, assertIsHexString in H.
    destruct (isHexString hexAddress); [reflexivity | discriminate]. }
  apply isHexString_inv in Hhex. destruct Hhex as [body [-> Hbody]].
  rewrite (toChecksumAddress_hex body eip1191ChainId Hbody) in H.
  destruct (match eip1191ChainId with
            | Some id =>
                b <- toBytes id ;;
                Ok (toString (bytesToBigInt b) ++ "0x")%string
            | None => Ok ""
            end) as [prefix | e] eqn:Hprefix; simpl in H; [| discriminate].
  inversion H as [Hc]. clear H.
  rewrite toChecksumAddress_hex.
  - rewrite Hprefix. simpl. rewrite toLowerCase_caseAdjust. reflexivity.
  - apply allHexChars_caseAdjust, allHexChars_toLowerCase, Hbody.
Qed.

Lemma toChecksumAddress_idempotent_witness :
  toChecksumAddress "0x88021160c5C792225E4E5452585947470010289d"
    (Some (Number 30))
  = Ok "0x88021160c5C792225E4E5452585947470010289d".
Proof.
  apply (toChecksumAddress_idempotent
           "0x88021160C5C792225E4E5452585947470010289D" (Some (Number 30))).
  vm_compute. reflexivity.
Defined.

(** *** The EIP-55 rule *)

Lemma get_caseAdjust (address hash : string) (i : nat) :
  String.get i (caseAdjust address hash) =
    match String.get i address with
    | Some c =>
        Some (if geNumber (parseInt16 (String.get i hash)) 8
              then toUpperChar c else c)
    | None => None
    end.
Proof.
  revert hash i. induction address as [| c a IH]; intros hash i;
    cbn [caseAdjust]; [destruct i; reflexivity |].
  destruct i as [| i]; [reflexivity |].
  cbn [String.get]. rewrite IH, get_slice. reflexivity.
Qed.

Lemma length_caseAdjust (address hash : string) :
  String.length (caseAdjust address hash) = String.length address.
Proof.
  revert hash. induction address as [| c a IH]; intros hash; simpl; auto.
Qed.

Lemma length_toLowerCase (s : string) :
  String.length (toLowerCase s) = String.length s.
Proof. induction s; simpl; auto. Qed.

Lemma get_Some_lt (s : string) (i : nat) (c : ascii) :
  String.get i s = Some c -> (i < String.length s)%nat.
Proof.
  revert i. induction s as [| x s IH]; intros i; simpl; [discriminate |].
  destruct i as [| i]; [lia |]. intros H. apply IH in H. lia.
Qed.

Lemma hexValue_hexDigit_high (x : byte) :
  hexValue (hexDigit (byteZ x / 16)) = Some (byteZ x / 16).
Proof. destruct x; reflexivity. Qed.

Lemma hexValue_hexDigit_low (x : byte) :
  hexValue (hexDigit (byteZ x mod 16)) = Some (byteZ x mod 16).
Proof. destruct x; reflexivity. Qed.

(** The digit [parseInt] reads at index [i] of the hash written in
    hexadecimal is digit [i] of the hash. *)
Lemma parseInt16_unprefixedHex (hash : bytes) (i : nat) :
  parseInt16 (String.get i (unprefixedHex hash)) = hashDigit hash i.
Proof.
  revert i. induction hash as [| x h IH]; intros i.
  - unfold hashDigit. destruct (i / 2)%nat; destruct i; reflexivity.
  - destruct i as [| [| i]].
    + simpl. apply hexValue_hexDigit_high.
    + simpl. apply hexValue_hexDigit_low.
    + cbn [unprefixedHex String.get]. rewrite IH. unfold hashDigit.
      replace (S (S i) / 2)%nat with (S (i / 2)).
      * reflexivity.
      * change (S (S i)) with (2 + i)%nat.
        replace (2 + i)%nat with (1 * 2 + i)%nat by lia.
        rewrite Nat.div_add_l by lia. reflexivity.
Qed.

Lemma iota_length (rc : N) (st : list N) :
  List.length (Keccak.iota rc st) = List.length st.
Proof. destruct st; reflexivity. Qed.

Lemma round_length (st : list N) (rc : N) :
  List.length (Keccak.round st rc) = 25%nat.
Proof.
  unfold Keccak.round, Keccak.chi, Keccak.indices.
  rewrite iota_length, length_map, length_seq. reflexivity.
Qed.

Lemma keccak_f_length (st : list N) :
  List.length st = 25%nat -> List.length (Keccak.keccak_f st) = 25%nat.
Proof.
  unfold Keccak.keccak_f. generalize Keccak.round_constants. intros l.
  revert st. induction l as [| rc l IH]; intros st H; simpl; [exact H |].
  apply IH. apply round_length.
Qed.

Lemma absorb_block_length (st block : list N) :
  List.length (Keccak.absorb_block st block) = 25%nat.
Proof.
  unfold Keccak.absorb_block. apply keccak_f_length.
  unfold Keccak.indices. rewrite length_map, length_seq. reflexivity.
Qed.

Lemma absorb_length (fuel : nat) (st msg : list N) :
  List.length st = 25%nat -> List.length (Keccak.absorb fuel st msg) = 25%nat.
Proof.
  revert st msg. induction fuel as [| fuel IH]; intros st msg H; simpl;
    [exact H |].
  destruct (Nat.ltb (List.length msg) Keccak.rate).
  - apply absorb_block_length.
  - apply IH. apply absorb_block_length.
Qed.

(** The hash is 32 bytes long. *)
Lemma keccak_256_length (msg : bytes) : List.length (keccak_256 msg) = 32%nat.
Proof.
  unfold keccak_256, Keccak.keccak_256_N, Keccak.squeeze.
  rewrite length_map.
  pose proof (absorb_length (S (List.length (map Byte.to_N msg)))
                (repeat 0%N 25) (map Byte.to_N msg) eq_refl) as H.
  destruct (Keccak.absorb _ _ _) as [| a [| b [| c [| d rest]]]];
    try discriminate.
  reflexivity.
Qed.

Lemma isValidAddress_inv (s : string) :
  isValidAddress s = true ->
  exists body,
    s = String "0" (String "x" body)
    /\ allHexChars body = true
    /\ String.length body = 40%nat.
Proof.
  unfold isValidAddress. rewrite andb_true_iff. intros [Hhex Hlen].
  apply isHexString_inv in Hhex. destruct Hhex as [body [-> Hbody]].
  exists body. repeat split; [exact Hbody |].
  apply Nat.eqb_eq in Hlen. simpl in Hlen. lia.
Qed.

(** C3.  Without a chain id, [toChecksumAddress] on "0x" and 40 hexadecimal
    digits returns "0x" and 40 characters, of which the one at position [i] is
    the lowercase character of the address at [i], in upper case exactly when
    digit [i] of the Keccak-256 hash of the lowercase address is 8 or more.
    It sends 0x5aaeb6053f3e94c9b9a09f33669435e7ef1beaed and
    0xfb6916095ca1df60bb79ce92ce3ea74c37c5d359 to the addresses EIP-55
    gives. *)
Theorem toChecksumAddress_eip55 :
  (forall hexAddress,
      isValidAddress hexAddress = true ->
      let address := toLowerCase (slice 2 hexAddress) in
      let hash := keccak_256 (utf8ToBytes address) in
      exists ret,
        toChecksumAddress hexAddress None = Ok (String "0" (String "x" ret))
        /\ String.length ret = 40%nat
        /\ forall i c,
             String.get i address = Some c ->
             exists d,
               hashDigit hash i = Some d
               /\ String.get i ret
                  = Some (if 8 <=? d then toUpperChar c else c))
  /\ toChecksumAddress "0x5aaeb6053f3e94c9b9a09f33669435e7ef1beaed" None
     = Ok "0x5aAeb6053F3E94C9b9A09f33669435E7Ef1BeAed"
  /\ toChecksumAddress "0xfb6916095ca1df60bb79ce92ce3ea74c37c5d359" None
     = Ok "0xfB6916095ca1df60bB79Ce92cE3Ea74c37c5d359".
Proof.
  split; [| split; vm_compute; reflexivity].
  intros hexAddress Hvalid address hash.
  apply isValidAddress_inv in Hvalid.
  destruct Hvalid as [body [-> [Hbody Hlen]]].
  change (slice 2 (String "0" (String "x" body))) with body in address.
  exists (caseAdjust address (unprefixedHex hash)).
  split; [| split].
  - rewrite (toChecksumAddress_hex body None Hbody). reflexivity.
  - rewrite length_caseAdjust. unfold address.
    rewrite length_toLowerCase. exact Hlen.
  - intros i c Hget.
    pose proof (get_Some_lt _ _ _ Hget) as Hi.
    unfold address in Hi. rewrite length_toLowerCase, Hlen in Hi.
    rewrite get_caseAdjust, Hget, parseInt16_unprefixedHex.
    unfold hashDigit.
    destruct (nth_error hash (i / 2)) as [b |] eqn:Hb.
    + eexists. split; reflexivity.
    + exfalso. apply nth_error_None in Hb.
      unfold hash in Hb. rewrite keccak_256_length in Hb.
      assert (i / 2 < 20)%nat by (apply Nat.Div0.div_lt_upper_bound; lia).
      lia.
Qed.

Lemma toChecksumAddress_eip55_witness :
  exists ret,
    toChecksumAddress "0x52908400098527886E0F7030069857D2E4169EE7" None
      = Ok (String "0" (String "x" ret))
    /\ String.length ret = 40%nat.
Proof.
  destruct (proj1 toChecksumAddress_eip55
              "0x52908400098527886E0F7030069857D2E4169EE7" eq_refl)
    as [ret [H [L _]]].
  exists ret. split; assumption.
Defined.

(** * Further properties *)

(** ** Big-endian integers *)

Lemma byteZ_byteOfZ (z : Z) : byteZ (byteOfZ z) = z mod 256.
Proof.
  unfold byteZ, byteOfZ.
  assert (Hr : 0 <= z mod 256 < 256) by (apply Z.mod_pos_bound; lia).
  destruct (Byte.of_N (Z.to_N (z mod 256))) as [b |] eqn:E.
  - apply Byte.to_of_N in E. rewrite E. lia.
  - exfalso.
    pose proof (Byte.to_of_N_option_map (Z.to_N (z mod 256))) as H.
    rewrite E in H. simpl in H.
    destruct (N.leb_spec (Z.to_N (z mod 256)) 255); [discriminate | lia].
Qed.

Lemma fold_bigEndian (l : bytes) (acc : Z) :
  fold_left (fun a x => a * 256 + byteZ x) l acc
  = acc * 256 ^ Z.of_nat (List.length l) + bytesToBigInt l.
Proof.
  unfold bytesToBigInt. revert acc.
  induction l as [| x l IH]; intros acc.
  - simpl. lia.
  - cbn [fold_left List.length]. rewrite IH, (IH (0 * 256 + byteZ x)).
    rewrite Nat2Z.inj_succ, Z.pow_succ_r by lia. ring.
Qed.

Lemma bytesToBigInt_cons (x : byte) (l : bytes) :
  bytesToBigInt (x :: l)
  = byteZ x * 256 ^ Z.of_nat (List.length l) + bytesToBigInt l.
Proof.
  unfold bytesToBigInt at 1. cbn [fold_left]. rewrite fold_bigEndian. ring.
Qed.

Lemma bytesToBigInt_range (l : bytes) :
  0 <= bytesToBigInt l < 256 ^ Z.of_nat (List.length l).
Proof.
  induction l as [| x l IH].
  - simpl. unfold bytesToBigInt. simpl. lia.
  - rewrite bytesToBigInt_cons. cbn [List.length].
    rewrite Nat2Z.inj_succ, Z.pow_succ_r by lia.
    pose proof (byteZ_range x). nia.
Qed.

(** A byte string whose first byte is not 0 reads as a number that needs all
    its bytes. *)
Lemma bytesToBigInt_lower (x : byte) (l : bytes) :
  byteZ x <> 0 -> 256 ^ Z.of_nat (List.length l) <= bytesToBigInt (x :: l).
Proof.
  intros Hx. rewrite bytesToBigInt_cons.
  pose proof (byteZ_range x). pose proof (bytesToBigInt_range l).
  assert (0 < 256 ^ Z.of_nat (List.length l)) by (apply Z.pow_pos_nonneg; lia).
  nia.
Qed.

(** The digits [bigEndianPos] puts in front of [acc]: they read as [z], and
    the first one is not 0. *)
Lemma bigEndianPos_digits (fuel : nat) (z : Z) (acc : bytes) :
  0 <= z < 2 ^ Z.of_nat fuel ->
  exists digits,
    bigEndianPos fuel z acc = digits ++ acc
    /\ bytesToBigInt digits = z
    /\ (z = 0 -> digits = [])
    /\ (0 < z -> byteZ (hd x00 digits) <> 0).
Proof.
  revert z acc. induction fuel as [| fuel IH]; intros z acc Hz.
  - exists []. simpl in Hz. repeat split; try reflexivity; try lia.
    unfold bytesToBigInt. simpl. lia.
  - cbn [bigEndianPos]. destruct (Z.leb_spec z 0) as [H0 | H0].
    + exists []. repeat split; try reflexivity; try lia.
      unfold bytesToBigInt. simpl. lia.
    + rewrite Nat2Z.inj_succ, Z.pow_succ_r in Hz by lia.
      assert (Hq : 0 <= z / 256 < 2 ^ Z.of_nat fuel).
      { split; [apply Z.div_pos; lia |].
        apply Z.div_lt_upper_bound; lia. }
      destruct (IH (z / 256) (byteOfZ z :: acc) Hq)
        as [digits [Hd [Hv [Hzero Hhead]]]].
      exists (digits ++ [byteOfZ z]). repeat split.
      * rewrite Hd, <- app_assoc. reflexivity.
      * unfold bytesToBigInt. rewrite fold_left_app. cbn [fold_left].
        fold (bytesToBigInt digits). rewrite Hv, byteZ_byteOfZ.
        pose proof (Z.div_mod z 256). lia.
      * lia.
      * intros _. destruct (Z.eq_dec (z / 256) 0) as [E | E].
        -- rewrite (Hzero E). simpl. rewrite byteZ_byteOfZ.
           pose proof (Z.div_mod z 256). 
           assert (z mod 256 = z) by lia. lia.
        -- assert (Hpos : 0 < z / 256) by lia.
           specialize (Hhead Hpos). destruct digits; [| exact Hhead].
           unfold bytesToBigInt in Hv. simpl in Hv. lia.
Qed.

Lemma bigEndian_digits (z : Z) :
  0 <= z ->
  bytesToBigInt (bigEndian z) = z
  /\ (z = 0 -> bigEndian z = [])
  /\ (0 < z -> byteZ (hd x00 (bigEndian z)) <> 0).
Proof.
  intros Hz. unfold bigEndian.
  assert (Hb : 0 <= z < 2 ^ Z.of_nat (S (Z.to_nat (Z.log2 z)))).
  { split; [exact Hz |].
    destruct (Z.eq_dec z 0) as [-> | Hne]; [simpl; lia |].
    rewrite Nat2Z.inj_succ, Z2Nat.id by apply Z.log2_nonneg.
    apply Z.log2_spec. lia. }
  destruct (bigEndianPos_digits _ z [] Hb) as [digits [Hd [Hv [H0 Hh]]]].
  rewrite app_nil_r in Hd. rewrite Hd. auto.
Qed.

(** A number below [256 ^ k] has at most [k] big-endian bytes. *)
Lemma bigEndian_length (z : Z) (k : nat) :
  0 <= z < 256 ^ Z.of_nat k -> (List.length (bigEndian z) <= k)%nat.
Proof.
  intros [Hz Hk]. destruct (bigEndian_digits z Hz) as [Hv [H0 Hh]].
  destruct (Z.eq_dec z 0) as [E | E]; [rewrite (H0 E); simpl; lia |].
  assert (Hpos : 0 < z) by lia. specialize (Hh Hpos).
  destruct (bigEndian z) as [| x l] eqn:Hd; [simpl; lia |].
  simpl in Hh. pose proof (bytesToBigInt_lower x l Hh) as Hl.
  rewrite Hv in Hl. cbn [List.length].
  destruct (Nat.le_gt_cases (S (List.length l)) k) as [Hle | Hgt]; [exact Hle |].
  exfalso.
  assert (256 ^ Z.of_nat k <= 256 ^ Z.of_nat (List.length l))
    by (apply Z.pow_le_mono_r; lia).
  lia.
Qed.

Lemma bigEndian_nonempty (z : Z) : 0 < z -> bigEndian z <> [].
Proof.
  intros Hz E. destruct (bigEndian_digits z (Z.lt_le_incl _ _ Hz)) as [Hv _].
  rewrite E in Hv. unfold bytesToBigInt in Hv. simpl in Hv. lia.
Qed.

(** ** Decoding what the RLP encoder wrote *)

Lemma firstn_length_app {A : Type} (a b : list A) :
  firstn (List.length a) (a ++ b) = a.
Proof. induction a as [| x a IH]; simpl; [destruct b; reflexivity | now rewrite IH]. Qed.

Lemma skipn_length_app {A : Type} (a b : list A) :
  skipn (List.length a) (a ++ b) = b.
Proof. induction a as [| x a IH]; simpl; auto. Qed.

Lemma encode_RList (items : list NestedUint8Array) :
  RLP.encode (RList items)
  = RLP.encodeLength (List.length (flat_map RLP.encode items)) 192
      ++ flat_map RLP.encode items.
Proof.
  cbn [RLP.encode].
  assert (E : (fix encodeAll (l : list NestedUint8Array) : bytes :=
                 match l with
                 | [] => []
                 | x :: l' => RLP.encode x ++ encodeAll l'
                 end) items = flat_map RLP.encode items).
  { induction items as [| x l IH]; [reflexivity |].
    cbn [flat_map]. rewrite <- IH. reflexivity. }
  rewrite E. reflexivity.
Qed.

(** The length header, by cases. *)
Lemma encodeLength_cases (len : nat) (offset : Z) :
  ((len < 56)%nat /\ RLP.encodeLength len offset = [byteOfZ (Z.of_nat len + offset)])
  \/ ((56 <= len)%nat
      /\ RLP.encodeLength len offset
         = byteOfZ (offset + 55 + Z.of_nat (List.length (bigEndian (Z.of_nat len))))
             :: bigEndian (Z.of_nat len)).
Proof.
  unfold RLP.encodeLength. destruct (Nat.ltb_spec len 56); [left | right]; auto.
Qed.

(** The bytes of a length between 56 and [2 ^ 64]: from one to eight of them,
    the first not 0, reading as the length. *)
Lemma length_bytes (len : nat) :
  (56 <= len)%nat -> Z.of_nat len < 2 ^ 64 ->
  let lb := bigEndian (Z.of_nat len) in
  (1 <= List.length lb <= 8)%nat
  /\ RLP.decodeLength lb = Ok len.
Proof.
  intros H56 H64 lb.
  destruct (bigEndian_digits (Z.of_nat len)) as [Hv [_ Hh]]; [lia |].
  assert (Hpos : 0 < Z.of_nat len) by lia. specialize (Hh Hpos).
  pose proof (bigEndian_length (Z.of_nat len) 8) as Hl.
  change (256 ^ Z.of_nat 8) with (2 ^ 64) in Hl.
  pose proof (bigEndian_nonempty _ Hpos) as Hne.
  fold lb in Hv, Hh, Hl, Hne.
  split.
  - split; [destruct lb; [congruence | simpl; lia] | apply Hl; lia].
  - unfold RLP.decodeLength. destruct lb as [| b l]; [congruence |].
    simpl in Hh. apply Z.eqb_neq in Hh. rewrite Hh, Hv, Nat2Z.id. reflexivity.
Qed.

(** A byte string headed by its length decodes to itself, unless it is a
    single byte below 0x80, which the encoder writes bare. *)
Lemma decode_string (fuel : nat) (p rest : bytes) :
  Z.of_nat (List.length p) < 2 ^ 64 ->
  (forall x, p = [x] -> 128 <= byteZ x) ->
  RLP._decode (S fuel) (RLP.encodeLength (List.length p) 128 ++ p ++ rest)
  = Ok (RBytes p, rest).
Proof.
  intros H64 Hsingle.
  destruct (encodeLength_cases (List.length p) 128) as [[Hlen ->] | [Hlen ->]].
  - set (first := byteOfZ (Z.of_nat (List.length p) + 128)).
    assert (Hfirst : byteZ first = Z.of_nat (List.length p) + 128).
    { unfold first. rewrite byteZ_byteOfZ. apply Z.mod_small. lia. }
    cbn [app RLP._decode]. rewrite Hfirst.
    destruct (Z.leb_spec (Z.of_nat (List.length p) + 128) 127); [lia |].
    destruct (Z.leb_spec (Z.of_nat (List.length p) + 128) 183); [| lia].
    replace (Z.to_nat (Z.of_nat (List.length p) + 128 - 127))
      with (S (List.length p)) by lia.
    destruct (Z.eqb_spec (Z.of_nat (List.length p) + 128) 128) as [E | E].
    + assert (Hp : p = []) by (destruct p; [reflexivity | simpl in E; lia]).
      subst p. reflexivity.
    + unfold RLP.safeSlice. cbn [List.length].
      rewrite length_app.
      destruct (Nat.ltb_spec (S (List.length p + List.length rest))
                  (S (List.length p))); [lia |].
      cbn [bind skipn]. replace (S (List.length p) - 1)%nat with (List.length p) by lia.
      rewrite firstn_length_app, skipn_length_app.
      destruct (Nat.eqb_spec (S (List.length p)) 2) as [E2 | E2]; [| reflexivity].
      destruct p as [| x [| y p]]; simpl in E2; try lia.
      specialize (Hsingle x eq_refl). simpl.
      destruct (Z.ltb_spec (byteZ x) 128); [lia | reflexivity].
  - destruct (length_bytes (List.length p) Hlen H64) as [[Hl1 Hl8] Hdl].
    set (lb := bigEndian (Z.of_nat (List.length p))) in *.
    set (first := byteOfZ (128 + 55 + Z.of_nat (List.length lb))).
    assert (Hfirst : byteZ first = 183 + Z.of_nat (List.length lb)).
    { unfold first. rewrite byteZ_byteOfZ. rewrite Z.mod_small; lia. }
    cbn [app RLP._decode]. rewrite Hfirst.
    destruct (Z.leb_spec (183 + Z.of_nat (List.length lb)) 127); [lia |].
    destruct (Z.leb_spec (183 + Z.of_nat (List.length lb)) 183); [lia |].
    destruct (Z.leb_spec (183 + Z.of_nat (List.length lb)) 191); [| lia].
    replace (Z.to_nat (183 + Z.of_nat (List.length lb) - 182))
      with (S (List.length lb)) by lia.
    cbn [List.length]. rewrite !length_app.
    destruct (Nat.ltb_spec
                (S (List.length lb + (List.length p + List.length rest)) - 1)
                (S (List.length lb))); [lia |].
    unfold RLP.safeSlice. cbn [List.length]. rewrite !length_app.
    destruct (Nat.ltb_spec
                (S (List.length lb + (List.length p + List.length rest)))
                (S (List.length lb))); [lia |].
    cbn [bind skipn].
    replace (S (List.length lb) - 1)%nat with (List.length lb) by lia.
    rewrite firstn_length_app, Hdl. cbn [bind].
    destruct (Nat.leb_spec (List.length p) 55); [lia |].
    destruct (Nat.ltb_spec
                (S (List.length lb + (List.length p + List.length rest)))
                (List.length p + S (List.length lb))); [lia |].
    cbn [bind].
    replace (List.length p + S (List.length lb) - S (List.length lb))%nat
      with (List.length p) by lia.
    rewrite skipn_length_app, firstn_length_app.
    replace (List.length p + S (List.length lb))%nat
      with (S (List.length lb + List.length p)) by lia.
    cbn [skipn]. rewrite app_assoc, <- length_app, skipn_length_app.
    reflexivity.
Qed.

(** A payload headed by its length as a list decodes to the items of the
    payload. *)
Lemma decode_list (fuel : nat) (p rest : bytes) :
  Z.of_nat (List.length p) < 2 ^ 64 ->
  RLP._decode (S fuel) (RLP.encodeLength (List.length p) 192 ++ p ++ rest)
  = (decoded <- RLP.decodeItems fuel p ;; Ok (RList decoded, rest)).
Proof.
  intros H64.
  destruct (encodeLength_cases (List.length p) 192) as [[Hlen ->] | [Hlen ->]].
  - set (first := byteOfZ (Z.of_nat (List.length p) + 192)).
    assert (Hfirst : byteZ first = Z.of_nat (List.length p) + 192).
    { unfold first. rewrite byteZ_byteOfZ. apply Z.mod_small. lia. }
    cbn [app RLP._decode]. rewrite Hfirst.
    destruct (Z.leb_spec (Z.of_nat (List.length p) + 192) 127); [lia |].
    destruct (Z.leb_spec (Z.of_nat (List.length p) + 192) 183); [lia |].
    destruct (Z.leb_spec (Z.of_nat (List.length p) + 192) 191); [lia |].
    destruct (Z.leb_spec (Z.of_nat (List.length p) + 192) 247); [| lia].
    replace (Z.to_nat (Z.of_nat (List.length p) + 192 - 191))
      with (S (List.length p)) by lia.
    unfold RLP.safeSlice. cbn [List.length]. rewrite length_app.
    destruct (Nat.ltb_spec (S (List.length p + List.length rest))
                (S (List.length p))); [lia |].
    cbn [bind skipn].
    replace (S (List.length p) - 1)%nat with (List.length p) by lia.
    rewrite firstn_length_app, skipn_length_app. reflexivity.
  - destruct (length_bytes (List.length p) Hlen H64) as [[Hl1 Hl8] Hdl].
    set (lb := bigEndian (Z.of_nat (List.length p))) in *.
    set (first := byteOfZ (192 + 55 + Z.of_nat (List.length lb))).
    assert (Hfirst : byteZ first = 247 + Z.of_nat (List.length lb)).
    { unfold first. rewrite byteZ_byteOfZ. rewrite Z.mod_small; lia. }
    cbn [app RLP._decode]. rewrite Hfirst.
    destruct (Z.leb_spec (247 + Z.of_nat (List.length lb)) 127); [lia |].
    destruct (Z.leb_spec (247 + Z.of_nat (List.length lb)) 183); [lia |].
    destruct (Z.leb_spec (247 + Z.of_nat (List.length lb)) 191); [lia |].
    destruct (Z.leb_spec (247 + Z.of_nat (List.length lb)) 247); [lia |].
    replace (Z.to_nat (247 + Z.of_nat (List.length lb) - 246))
      with (S (List.length lb)) by lia.
    unfold RLP.safeSlice. cbn [List.length]. rewrite !length_app.
    destruct (Nat.ltb_spec
                (S (List.length lb + (List.length p + List.length rest)))
                (S (List.length lb))); [lia |].
    cbn [bind skipn].
    replace (S (List.length lb) - 1)%nat with (List.length lb) by lia.
    rewrite firstn_length_app, Hdl. cbn [bind].
    destruct (Nat.ltb_spec (List.length p) 56); [lia |].
    destruct (Nat.ltb_spec
                (S (List.length lb + (List.length p + List.length rest)))
                (S (List.length lb) + List.length p)); [lia |].
    cbn [bind].
    replace (S (List.length lb) + List.length p - S (List.length lb))%nat
      with (List.length p) by lia.
    rewrite skipn_length_app, firstn_length_app.
    replace (S (List.length lb) + List.length p)%nat
      with (S (List.length lb + List.length p)) by lia.
    cbn [skipn]. rewrite app_assoc, <- length_app, skipn_length_app.
    reflexivity.
Qed.

(** Induction on nested lists, with the items of a list at hand. *)
Lemma NestedUint8Array_induction (P : NestedUint8Array -> Prop) :
  (forall b, P (RBytes b)) ->
  (forall items, Forall P items -> P (RList items)) ->
  forall x, P x.
Proof.
  intros Hb Hl.
  fix IH 1. intros [b | items].
  - apply Hb.
  - apply Hl. induction items as [| y items IHitems].
    + constructor.
    + constructor; [apply IH | exact IHitems].
Qed.

Lemma encode_RBytes (b : bytes) :
  (exists x, b = [x] /\ byteZ x < 128 /\ RLP.encode (RBytes b) = [x])
  \/ ((forall x, b = [x] -> 128 <= byteZ x)
      /\ RLP.encode (RBytes b) = RLP.encodeLength (List.length b) 128 ++ b).
Proof.
  destruct b as [| x [| y b]].
  - right. split; [intros x H; discriminate | reflexivity].
  - cbn [RLP.encode]. destruct (Z.ltb_spec (byteZ x) 128).
    + left. exists x. auto.
    + right. split; [| reflexivity]. intros z Hz. inversion Hz; subst. lia.
  - right. split; [intros z H; discriminate | reflexivity].
Qed.

Lemma encodeLength_nonempty (len : nat) (offset : Z) :
  (1 <= List.length (RLP.encodeLength len offset))%nat.
Proof.
  destruct (encodeLength_cases len offset) as [[_ ->] | [_ ->]]; simpl; lia.
Qed.

Lemma encode_nonempty (x : NestedUint8Array) :
  (1 <= List.length (RLP.encode x))%nat.
Proof.
  destruct x as [b | items].
  - destruct (encode_RBytes b) as [[x [_ [_ ->]]] | [_ ->]]; [simpl; lia |].
    rewrite length_app. pose proof (encodeLength_nonempty (List.length b) 128). lia.
  - rewrite encode_RList, length_app.
    pose proof (encodeLength_nonempty
                  (List.length (flat_map RLP.encode items)) 192). lia.
Qed.

Lemma decodeItems_cons (fuel : nat) (x : NestedUint8Array) (tail : bytes) :
  RLP.decodeItems (S fuel) (RLP.encode x ++ tail)
  = (d <- RLP._decode fuel (RLP.encode x ++ tail) ;;
     rest <- RLP.decodeItems fuel (snd d) ;;
     Ok (fst d :: rest)).
Proof.
  pose proof (encode_nonempty x) as H.
  cbn [RLP.decodeItems].
  destruct (RLP.encode x) as [| b l]; [simpl in H; lia | reflexivity].
Qed.

Lemma depth_RList (items : list NestedUint8Array) :
  depth (RList items) = S (depthItems items).
Proof.
  reflexivity.
Qed.

(** What the round trip asks of the recursion bound. *)
Lemma decode_encode_fuel :
  forall x,
    Z.of_nat (List.length (RLP.encode x)) < 2 ^ 64 ->
    forall fuel rest,
      (depth x <= fuel)%nat ->
      RLP._decode fuel (RLP.encode x ++ rest) = Ok (x, rest).
Proof.
  induction x as [b | items IH] using NestedUint8Array_induction;
    intros H64 fuel rest Hfuel.
  - destruct fuel as [| fuel]; [simpl in Hfuel; lia |].
    destruct (encode_RBytes b) as [[x [-> [Hx E]]] | [Hsingle E]].
    + rewrite E. cbn [app RLP._decode].
      destruct (Z.leb_spec (byteZ x) 127); [reflexivity | lia].
    + rewrite E in *. rewrite <- app_assoc. apply decode_string; [| exact Hsingle].
      rewrite length_app in H64. lia.
  - destruct fuel as [| fuel]; [simpl in Hfuel; lia |].
    rewrite encode_RList in *. rewrite <- app_assoc.
    rewrite length_app in H64.
    rewrite decode_list by lia.
    rewrite depth_RList in Hfuel. apply le_S_n in Hfuel.
    assert (Hitems : RLP.decodeItems fuel (flat_map RLP.encode items) = Ok items).
    { clear rest. revert fuel Hfuel.
      assert (Hpayload : Z.of_nat (List.length (flat_map RLP.encode items)) < 2 ^ 64)
        by lia.
      clear H64.
      induction IH as [| y items Hy _ IHitems]; intros fuel Hfuel.
      - destruct fuel; [simpl in Hfuel; lia | reflexivity].
      - cbn [depthItems] in Hfuel.
        destruct fuel as [| fuel]; [lia |]. apply le_S_n in Hfuel.
        cbn [flat_map] in *. rewrite length_app in Hpayload.
        rewrite decodeItems_cons.
        rewrite Hy by lia. cbn [bind snd fst].
        rewrite IHitems by lia. reflexivity. }
    rewrite Hitems. reflexivity.
Qed.

Lemma depth_bound :
  forall x, (depth x <= 2 * List.length (RLP.encode x))%nat.
Proof.
  induction x as [b | items IH] using NestedUint8Array_induction.
  - pose proof (encode_nonempty (RBytes b)). simpl depth. lia.
  - assert (Hitems : (depthItems items
                      <= 2 * List.length (flat_map RLP.encode items) + 1)%nat).
    { induction IH as [| y items Hy _ IHitems]; [simpl; lia |].
      cbn [depthItems flat_map]. rewrite length_app.
      pose proof (encode_nonempty y). lia. }
    rewrite encode_RList, length_app, depth_RList.
    pose proof (encodeLength_nonempty
                  (List.length (flat_map RLP.encode items)) 192) as Hh.
    lia.
Qed.

(** [RLP.decode] undoes [RLP.encode], on anything whose encoding is shorter
    than [2 ^ 64] bytes. *)
Lemma decode_encode (x : NestedUint8Array) :
  Z.of_nat (List.length (RLP.encode x)) < 2 ^ 64 ->
  RLP.decode (RLP.encode x) = Ok x.
Proof.
  intros H64. unfold RLP.decode.
  pose proof (encode_nonempty x) as Hne.
  destruct (RLP.encode x) as [| b l] eqn:E; [simpl in Hne; lia |].
  rewrite <- E. rewrite <- (app_nil_r (RLP.encode x)) at 2.
  rewrite decode_encode_fuel.
  - reflexivity.
  - rewrite E. exact H64.
  - pose proof (depth_bound x). rewrite E in *. lia.
Qed.

(** ** Empty accounts and contracts *)

Lemma isEmpty_true_fields (this : Account) :
  isEmpty this = Ok true ->
  _balance this = Some 0
  /\ _nonce this = Some 0
  /\ _codeHash this = Some KECCAK256_NULL.
Proof.
  destruct this as [n b r h cs ver]. unfold isEmpty, BIGINT_0. simpl.
  destruct b as [b |]; simpl.
  - destruct (Z.eqb_spec b 0) as [-> | Hb]; simpl; [| discriminate].
    destruct n as [n |]; simpl; [| discriminate].
    destruct h as [h |]; simpl.
    + destruct (equalsBytes h KECCAK256_NULL) eqn:Eh; simpl; [| discriminate].
      apply equalsBytes_eq in Eh. subst h.
      destruct (Z.eqb_spec n 0) as [-> | Hn]; simpl; [auto | discriminate].
    + destruct (n =? 0); simpl; discriminate.
  - destruct n as [n |]; simpl; [| discriminate].
    destruct h as [h |]; simpl; [| discriminate].
    destruct (equalsBytes h KECCAK256_NULL); simpl; discriminate.
Qed.

(** X1.  [isEmpty] answers [true] exactly on an account whose balance and
    nonce are loaded and 0 and whose code hash is loaded and is the hash of no
    code; the storage root, the code size and the version play no part. *)
Theorem isEmpty_true_iff (this : Account) :
  isEmpty this = Ok true
  <-> _balance this = Some 0
      /\ _nonce this = Some 0
      /\ _codeHash this = Some KECCAK256_NULL.
Proof.
  split; [apply isEmpty_true_fields |].
  destruct this as [n b r h cs ver]. simpl.
  intros [Hb [Hn Hh]]. inversion Hb; inversion Hn; inversion Hh; subst.
  reflexivity.
Qed.

Lemma isEmpty_true_iff_witness :
  isEmpty (mkAccount (Some 0) (Some 0) None (Some KECCAK256_NULL) None None)
  = Ok true.
Proof.
  apply (proj2 (isEmpty_true_iff
                  (mkAccount (Some 0) (Some 0) None (Some KECCAK256_NULL)
                     None None))).
  repeat split.
Defined.

(** X2.  On an account whose balance, nonce and code hash are loaded,
    [isEmpty] never fails: it answers whether the balance is 0, the nonce is 0
    and the code hash is the hash of no code. *)
Theorem isEmpty_loaded (this : Account) (b n : Z) (h : bytes) :
  _balance this = Some b ->
  _nonce this = Some n ->
  _codeHash this = Some h ->
  isEmpty this = Ok ((b =? 0) && (n =? 0) && equalsBytes h KECCAK256_NULL).
Proof.
  destruct this as [n' b' r h' cs ver]. simpl. intros -> -> ->.
  unfold isEmpty, BIGINT_0. simpl.
  destruct (b =? 0); simpl; [| reflexivity].
  destruct (equalsBytes h KECCAK256_NULL); simpl.
  - destruct (n =? 0); reflexivity.
  - destruct (n =? 0); reflexivity.
Qed.

Lemma isEmpty_loaded_witness :
  isEmpty (mkAccount (Some 0) (Some 7) (Some KECCAK256_RLP)
             (Some KECCAK256_NULL) (Some 0) (Some 0))
  = Ok false.
Proof.
  exact (isEmpty_loaded
           (mkAccount (Some 0) (Some 7) (Some KECCAK256_RLP)
              (Some KECCAK256_NULL) (Some 0) (Some 0))
           7 0 KECCAK256_NULL eq_refl eq_refl eq_refl).
Defined.

(** X3.  When [isEmpty] fails, it fails as the read of a field that is not
    loaded, and that field is the nonce, the balance or the code hash. *)
Theorem isEmpty_failure (this : Account) (e : error) :
  isEmpty this = Throw e ->
  (e = notLoadedError "nonce" /\ _nonce this = None)
  \/ (e = notLoadedError "balance" /\ _balance this = None)
  \/ (e = notLoadedError "codeHash" /\ _codeHash this = None).
Proof.
  destruct this as [n b r h cs ver]. unfold isEmpty, BIGINT_0. simpl.
  destruct b as [b |]; simpl.
  - destruct (b =? 0); simpl; [| discriminate].
    destruct n as [n |]; simpl;
      [| intros H; inversion H; left; split; reflexivity].
    destruct h as [h |]; simpl.
    + destruct (equalsBytes h KECCAK256_NULL); simpl; [| discriminate].
      destruct (n =? 0); simpl; discriminate.
    + destruct (n =? 0); simpl; [| discriminate].
      intros H; inversion H. right. right. split; reflexivity.
  - destruct n as [n |]; simpl;
      [| intros H; inversion H; left; split; reflexivity].
    destruct h as [h |]; simpl.
    + destruct (equalsBytes h KECCAK256_NULL); simpl; [| discriminate].
      intros H; inversion H. right. left. split; reflexivity.
    + intros H; inversion H. right. left. split; reflexivity.
Qed.

Lemma isEmpty_failure_witness :
  (notLoadedError "codeHash" = notLoadedError "nonce"
   /\ _nonce (mkAccount (Some 0) (Some 0) None None None None) = None)
  \/ (notLoadedError "codeHash" = notLoadedError "balance"
      /\ _balance (mkAccount (Some 0) (Some 0) None None None None) = None)
  \/ (notLoadedError "codeHash" = notLoadedError "codeHash"
      /\ _codeHash (mkAccount (Some 0) (Some 0) None None None None) = None).
Proof.
  exact (isEmpty_failure (mkAccount (Some 0) (Some 0) None None None None)
           (notLoadedError "codeHash") eq_refl).
Defined.

(** X4.  An account [isEmpty] calls empty is no contract, unless a code size
    other than 0 is loaded beside the hash of no code. *)
Theorem empty_is_no_contract (this : Account) :
  isEmpty this = Ok true ->
  isContract this
  = Ok (match _codeSize this with
        | Some size => negb (size =? 0)
        | None => false
        end).
Proof.
  intros H. apply isEmpty_true_fields in H. destruct H as [_ [_ Hh]].
  unfold isContract. rewrite Hh. reflexivity.
Qed.

Lemma empty_is_no_contract_witness :
  isContract (mkAccount (Some 0) (Some 0) None (Some KECCAK256_NULL) None None)
  = Ok false.
Proof.
  exact (empty_is_no_contract
           (mkAccount (Some 0) (Some 0) None (Some KECCAK256_NULL) None None)
           eq_refl).
Defined.

(** ** What the constructor and the factories return *)

Lemma _validate_Ok_bounds (this : Account) :
  _validate this = Ok tt ->
  (forall n, _nonce this = Some n -> 0 <= n)
  /\ (forall n, _balance this = Some n -> 0 <= n)
  /\ (forall r, _storageRoot this = Some r -> List.length r = 32%nat)
  /\ (forall h, _codeHash this = Some h -> List.length h = 32%nat)
  /\ (forall n, _codeSize this = Some n -> 0 <= n).
Proof.
  intros Hv.
  assert (Hnot : ~ boundViolated (_nonce this) (_balance this)
                     (_storageRoot this) (_codeHash this) (_codeSize this)).
  { intros Hb. apply _validate_Throw_iff in Hb. destruct Hb as [e He].
    congruence. }
  unfold boundViolated in Hnot.
  repeat split.
  - intros n Hn. destruct (Z.le_gt_cases 0 n); [assumption |].
    exfalso. apply Hnot. left. exists n. split; [assumption | lia].
  - intros n Hn. destruct (Z.le_gt_cases 0 n); [assumption |].
    exfalso. apply Hnot. right. left. exists n. split; [assumption | lia].
  - intros r Hr. destruct (Nat.eq_dec (List.length r) 32); [assumption |].
    exfalso. apply Hnot. right. right. left. exists r. auto.
  - intros h Hh. destruct (Nat.eq_dec (List.length h) 32); [assumption |].
    exfalso. apply Hnot. right. right. right. left. exists h. auto.
  - intros n Hn. destruct (Z.le_gt_cases 0 n); [assumption |].
    exfalso. apply Hnot. right. right. right. right. exists n.
    split; [assumption | lia].
Qed.

Lemma constructor_Ok (nonce balance : arg Z) (storageRoot codeHash : arg bytes)
    (codeSize version : arg Z) (this : Account) :
  constructor nonce balance storageRoot codeHash codeSize version = Ok this ->
  this = mkAccount (orDefault 0 nonce) (orDefault 0 balance)
           (orDefault KECCAK256_RLP storageRoot)
           (orDefault KECCAK256_NULL codeHash)
           (storedCodeSize (orDefault KECCAK256_NULL codeHash)
              (orDefault 0 codeSize))
           (orDefault 0 version)
  /\ _validate this = Ok tt.
Proof.
  rewrite constructor_unfold. cbv zeta.
  destruct (_validate _) as [[] | e] eqn:Hv; simpl; [| discriminate].
  intros H. inversion H; subst. split; [reflexivity | exact Hv].
Qed.

(** X5.  Every account the constructor returns keeps the bounds (nonce,
    balance and code size not negative, storage root and code hash of 32
    bytes, for the fields that are loaded); and it never has a loaded code
    hash beside a code size that is not loaded unless the hash is that of
    some code, so that [isContract] then answers [true]. *)
Theorem constructor_invariant (nonce balance : arg Z)
    (storageRoot codeHash : arg bytes) (codeSize version : arg Z)
    (this : Account) :
  constructor nonce balance storageRoot codeHash codeSize version = Ok this ->
  (forall n, _nonce this = Some n -> 0 <= n)
  /\ (forall n, _balance this = Some n -> 0 <= n)
  /\ (forall r, _storageRoot this = Some r -> List.length r = 32%nat)
  /\ (forall h, _codeHash this = Some h -> List.length h = 32%nat)
  /\ (forall n, _codeSize this = Some n -> 0 <= n)
  /\ (forall h,
        _codeHash this = Some h -> _codeSize this = None ->
        h <> KECCAK256_NULL /\ isContract this = Ok true).
Proof.
  intros H. apply constructor_Ok in H. destruct H as [Hthis Hv].
  pose proof (_validate_Ok_bounds this Hv) as [Hn [Hb [Hr [Hh Hs]]]].
  repeat split; try assumption.
  - rewrite Hthis in H, H0. simpl in H, H0. rewrite H in H0.
    unfold storedCodeSize in H0.
    destruct (orDefault 0 codeSize); [discriminate |].
    destruct (equalsBytes h KECCAK256_NULL) eqn:E; [discriminate |].
    apply equalsBytes_neq. exact E.
  - unfold isContract. rewrite H, H0. simpl.
    rewrite Hthis in H, H0. simpl in H, H0. rewrite H in H0.
    unfold storedCodeSize in H0.
    destruct (orDefault 0 codeSize); [discriminate |].
    destruct (equalsBytes h KECCAK256_NULL) eqn:E; [discriminate |].
    reflexivity.
Qed.

Lemma constructor_invariant_witness :
  repeat x11 32 <> KECCAK256_NULL
  /\ isContract (mkAccount (Some 0) None None (Some (repeat x11 32)) None (Some 0))
     = Ok true.
Proof.
  exact (proj2 (proj2 (proj2 (proj2 (proj2
           (constructor_invariant Undefined Null Null (Value (repeat x11 32))
              Null Undefined
              (mkAccount (Some 0) None None (Some (repeat x11 32)) None (Some 0))
              eq_refl)))))
           (repeat x11 32) eq_refl eq_refl).
Defined.

Lemma coerce_Ok {T : Type} (f : bytes -> T) (a : arg BytesLike) (a' : arg T) :
  coerce f a = Ok a' -> argIsNull a' = argIsNull a.
Proof.
  destruct a as [| | x]; simpl.
  - intros H; inversion H; reflexivity.
  - intros H; inversion H; reflexivity.
  - destruct (toBytes x); simpl; intros H; inversion H; reflexivity.
Qed.

Lemma coerceInt_Ok (a : arg BytesLike) (a' : arg Z) :
  coerceInt a = Ok a' -> argIsNull a' = argIsNull a.
Proof.
  destruct a as [| | x]; simpl.
  - intros H; inversion H; reflexivity.
  - intros H; inversion H; reflexivity.
  - destruct (toBytes x) as [b |]; simpl; [| discriminate].
    destruct (bytesToInt b); simpl; intros H; inversion H; reflexivity.
Qed.

Lemma orDefault_None {T : Type} (d : T) (a : arg T) :
  orDefault d a = None <-> argIsNull a = true.
Proof. destruct a; simpl; split; congruence. Qed.

(** X6.  [createAccount] refuses a descriptor with a [null] field, and what
    it returns otherwise has its six fields loaded, with the code size 0 and
    the version 0 whatever the code hash: [serialize] does not fail on it,
    and [isContract] tells whether the code hash is that of some code. *)
Theorem createAccount_loaded (accountData : AccountData) :
  (argIsNull (ad_nonce accountData) = true
   \/ argIsNull (ad_balance accountData) = true
   \/ argIsNull (ad_storageRoot accountData) = true
   \/ argIsNull (ad_codeHash accountData) = true ->
   createAccount accountData
     = Throw (Error "Partial fields not supported in fromAccountData"))
  /\ (forall this,
        createAccount accountData = Ok this ->
        exists n b r h,
          this = mkAccount (Some n) (Some b) (Some r) (Some h) (Some 0) (Some 0)
          /\ serialize this
             = Ok (RLP.encode
                     (RList [RBytes (bigIntToUnpaddedBytes n);
                             RBytes (bigIntToUnpaddedBytes b);
                             RBytes r; RBytes h]))
          /\ isContract this = Ok (negb (equalsBytes h KECCAK256_NULL))).
Proof.
  destruct accountData as [n b r h]. unfold createAccount, BigIntLike in *.
  cbn [ad_nonce ad_balance ad_storageRoot ad_codeHash].
  split.
  - intros [H | [H | [H | H]]]; rewrite H; rewrite ?orb_true_r; reflexivity.
  - intros this.
    destruct (argIsNull n) eqn:En; [discriminate |].
    destruct (argIsNull b) eqn:Eb; [discriminate |].
    destruct (argIsNull r) eqn:Er; [discriminate |].
    destruct (argIsNull h) eqn:Eh; [discriminate |].
    cbn [orb].
    destruct (coerce bytesToBigInt n) as [n' |] eqn:Cn; cbn [bind];
      [| discriminate].
    destruct (coerce bytesToBigInt b) as [b' |] eqn:Cb; cbn [bind];
      [| discriminate].
    destruct (coerce (fun x => x) r) as [r' |] eqn:Cr; cbn [bind];
      [| discriminate].
    destruct (coerce (fun x => x) h) as [h' |] eqn:Ch; cbn [bind];
      [| discriminate].
    apply coerce_Ok in Cn, Cb, Cr, Ch. rewrite En in Cn. rewrite Eb in Cb.
    rewrite Er in Cr. rewrite Eh in Ch.
    intros H. apply constructor_Ok in H. destruct H as [-> _].
    destruct (orDefault 0 n') as [vn |] eqn:On;
      [| apply orDefault_None in On; congruence].
    destruct (orDefault 0 b') as [vb |] eqn:Ob;
      [| apply orDefault_None in Ob; congruence].
    destruct (orDefault KECCAK256_RLP r') as [vr |] eqn:Or;
      [| apply orDefault_None in Or; congruence].
    destruct (orDefault KECCAK256_NULL h') as [vh |] eqn:Oh;
      [| apply orDefault_None in Oh; congruence].
    exists vn, vb, vr, vh. split; [reflexivity |]. split; [reflexivity |].
    unfold isContract. simpl. rewrite orb_false_r. reflexivity.
Qed.

Lemma createAccount_loaded_witness :
  createAccount (mkAccountData (Value (Number 1)) Null Undefined Undefined)
  = Throw (Error "Partial fields not supported in fromAccountData").
Proof.
  apply (proj1 (createAccount_loaded
                  (mkAccountData (Value (Number 1)) Null Undefined Undefined))).
  right. left. reflexivity.
Defined.

(** X7.  [createPartialAccount] refuses the descriptor whose six fields are
    [null], and never returns an account with nothing loaded. *)
Theorem createPartialAccount_not_blank (partialAccountData : PartialAccountData) :
  (partialAccountData = mkPartialAccountData Null Null Null Null Null Null ->
   createPartialAccount partialAccountData
     = Throw (Error "All partial fields null"))
  /\ createPartialAccount partialAccountData
     <> Ok (mkAccount None None None None None None).
Proof.
  split; [intros ->; reflexivity |].
  destruct partialAccountData as [n b r h cs ver].
  unfold createPartialAccount, BigIntLike in *.
  cbn [pad_nonce pad_balance pad_storageRoot pad_codeHash pad_codeSize
         pad_version].
  destruct (argIsNull n && argIsNull b && argIsNull r && argIsNull h
            && argIsNull cs && argIsNull ver) eqn:Hall; [discriminate |].
  destruct (coerce bytesToBigInt n) as [n' |] eqn:Cn; cbn [bind];
    [| discriminate].
  destruct (coerce bytesToBigInt b) as [b' |] eqn:Cb; cbn [bind];
    [| discriminate].
  destruct (coerce (fun x => x) r) as [r' |] eqn:Cr; cbn [bind];
    [| discriminate].
  destruct (coerce (fun x => x) h) as [h' |] eqn:Ch; cbn [bind];
    [| discriminate].
  destruct (coerceInt cs) as [cs' |] eqn:Ccs; cbn [bind];
    [| discriminate].
  destruct (coerceInt ver) as [ver' |] eqn:Cver; cbn [bind];
    [| discriminate].
  apply coerce_Ok in Cn, Cb, Cr, Ch. apply coerceInt_Ok in Ccs, Cver.
  intros H. apply constructor_Ok in H. destruct H as [H _].
  inversion H as [[Hn Hb Hr Hh Hcs Hver]].
  unfold storedCodeSize in Hcs.
  assert (Hcs' : orDefault 0 cs' = None)
    by (destruct (orDefault 0 cs'); [discriminate | reflexivity]).
  clear Hcs.
  symmetry in Hn, Hb, Hr, Hh, Hver.
  apply orDefault_None in Hn, Hb, Hr, Hh, Hcs', Hver.
  rewrite Cn in Hn. rewrite Cb in Hb. rewrite Cr in Hr. rewrite Ch in Hh.
  rewrite Ccs in Hcs'. rewrite Cver in Hver.
  rewrite Hn, Hb, Hr, Hh, Hcs', Hver in Hall. discriminate.
Qed.

Lemma createPartialAccount_not_blank_witness :
  createPartialAccount (mkPartialAccountData Null Null Null Null Null Null)
  = Throw (Error "All partial fields null").
Proof.
  exact (proj1 (createPartialAccount_not_blank
                  (mkPartialAccountData Null Null Null Null Null Null))
           eq_refl).
Defined.

(** ** The length of an encoding *)

Lemma encodeLength_length (len : nat) (offset : Z) :
  Z.of_nat len < 2 ^ 64 ->
  (List.length (RLP.encodeLength len offset) <= 9)%nat.
Proof.
  intros H64.
  destruct (encodeLength_cases len offset) as [[_ ->] | [H56 ->]]; [simpl; lia |].
  destruct (length_bytes len H56 H64) as [[_ H8] _]. cbn [List.length]. lia.
Qed.

Lemma sizeBound_RList (items : list NestedUint8Array) :
  sizeBound (RList items) = (sizeBoundItems items + 9)%nat.
Proof. reflexivity. Qed.

Lemma encode_length_bound :
  forall x,
    Z.of_nat (sizeBound x) < 2 ^ 64 ->
    (List.length (RLP.encode x) <= sizeBound x)%nat.
Proof.
  induction x as [b | items IH] using NestedUint8Array_induction; intros H64.
  - cbn [sizeBound] in *.
    destruct (encode_RBytes b) as [[x [-> [_ ->]]] | [_ ->]]; [simpl; lia |].
    rewrite length_app.
    pose proof (encodeLength_length (List.length b) 128). lia.
  - rewrite sizeBound_RList in *.
    assert (Hitems : (List.length (flat_map RLP.encode items)
                      <= sizeBoundItems items)%nat).
    { assert (Hb : Z.of_nat (sizeBoundItems items) < 2 ^ 64) by lia.
      clear H64.
      induction IH as [| y items Hy _ IHitems]; [simpl; lia |].
      cbn [flat_map sizeBoundItems] in *. rewrite length_app.
      specialize (Hy ltac:(lia)). specialize (IHitems ltac:(lia)). lia. }
    rewrite encode_RList, length_app.
    pose proof (encodeLength_length
                  (List.length (flat_map RLP.encode items)) 192). lia.
Qed.

(** [RLP.decode] undoes [RLP.encode] on what is small enough. *)
Lemma decode_encode_sized (x : NestedUint8Array) :
  Z.of_nat (sizeBound x) < 2 ^ 64 -> RLP.decode (RLP.encode x) = Ok x.
Proof.
  intros H. apply decode_encode.
  pose proof (encode_length_bound x H). lia.
Qed.

Lemma bigEndian_32 (n : Z) :
  0 <= n < 2 ^ 256 -> (List.length (bigEndian n) <= 32)%nat.
Proof. intros H. apply bigEndian_length. exact H. Qed.

Lemma bytesToBigInt_bigEndian (n : Z) : 0 <= n -> bytesToBigInt (bigEndian n) = n.
Proof. intros H. apply (bigEndian_digits n H). Qed.

(** ** Validation passes within the bounds *)

Lemma _validate_within (this : Account) (hi1 hi2 hi3 : Z) :
  within 0 hi1 (_nonce this) ->
  within 0 hi2 (_balance this) ->
  hash32 (_storageRoot this) ->
  hash32 (_codeHash this) ->
  within 0 hi3 (_codeSize this) ->
  _validate this = Ok tt.
Proof.
  destruct this as [n b r h cs ver]. unfold _validate, within, hash32, BIGINT_0.
  simpl. intros Hn Hb Hr Hh Hcs.
  assert (En : match n with Some n0 => n0 <? 0 | None => false end = false)
    by (destruct n; [apply Z.ltb_ge; lia | reflexivity]).
  assert (Eb : match b with Some n0 => n0 <? 0 | None => false end = false)
    by (destruct b; [apply Z.ltb_ge; lia | reflexivity]).
  assert (Er : match r with
               | Some r0 => negb (Nat.eqb (List.length r0) 32)
               | None => false
               end = false)
    by (destruct r; [rewrite Hr; reflexivity | reflexivity]).
  assert (Eh : match h with
               | Some h0 => negb (Nat.eqb (List.length h0) 32)
               | None => false
               end = false)
    by (destruct h; [rewrite Hh; reflexivity | reflexivity]).
  assert (Ecs : match cs with Some n0 => n0 <? 0 | None => false end = false)
    by (destruct cs; [apply Z.ltb_ge; lia | reflexivity]).
  rewrite En, Eb, Er, Eh, Ecs. reflexivity.
Qed.

(** ** The canonical encoding, there and back *)

(** X8.  An account with its four core fields loaded and in their bounds
    (nonce and balance below [2 ^ 256]) serialises, and
    [createAccountFromRLP] reads the nonce, the balance, the storage root and
    the code hash back; the code size and the version are not carried, and
    read back as 0. *)
Theorem serialize_createAccountFromRLP (n b : Z) (r h : bytes)
    (size ver : option Z) :
  0 <= n < 2 ^ 256 ->
  0 <= b < 2 ^ 256 ->
  List.length r = 32%nat ->
  List.length h = 32%nat ->
  exists serialized,
    serialize (mkAccount (Some n) (Some b) (Some r) (Some h) size ver)
      = Ok serialized
    /\ createAccountFromRLP serialized
       = Ok (mkAccount (Some n) (Some b) (Some r) (Some h) (Some 0) (Some 0)).
Proof.
  intros Hn Hb Hr Hh. eexists. split; [reflexivity |].
  unfold createAccountFromRLP, bigIntToUnpaddedBytes. cbn [map].
  rewrite decode_encode_sized.
  - cbn [bind]. unfold createAccountFromBytesArray.
    cbn [nth_error readBigInt readBytes asUint8Array bind].
    rewrite !bytesToBigInt_bigEndian by lia.
    rewrite constructor_unfold. cbn [orDefault storedCodeSize]. cbv zeta.
    rewrite (_validate_within _ (2 ^ 256) (2 ^ 256) 1); simpl; try lia.
    reflexivity.
  - rewrite sizeBound_RList. cbn [sizeBoundItems sizeBound].
    pose proof (bigEndian_32 n Hn). pose proof (bigEndian_32 b Hb).
    rewrite Hr, Hh. lia.
Qed.

(** The account of the specification's example: nonce 1, balance 1000, a
    storage root of 32 bytes 0x11, no code. *)
Lemma serialize_createAccountFromRLP_witness :
  exists serialized,
    serialize (mkAccount (Some 1) (Some 1000) (Some (repeat x11 32))
                 (Some KECCAK256_NULL) (Some 0) (Some 0))
      = Ok serialized
    /\ createAccountFromRLP serialized
       = Ok (mkAccount (Some 1) (Some 1000) (Some (repeat x11 32))
               (Some KECCAK256_NULL) (Some 0) (Some 0)).
Proof.
  apply (serialize_createAccountFromRLP 1 1000 (repeat x11 32) KECCAK256_NULL
           (Some 0) (Some 0)); try reflexivity; lia.
Defined.

(** ** The partial encoding, there and back *)

Lemma bytesToBigInt_wholeBytes (n : Z) : 0 <= n -> bytesToBigInt (wholeBytes n) = n.
Proof.
  intros H. unfold wholeBytes. destruct (Z.eqb_spec n 0) as [-> | Hne].
  - reflexivity.
  - apply bytesToBigInt_bigEndian. exact H.
Qed.

(** What [createPartialAccountFromRLP] makes of one entry of the encoding:
    the field as a [BytesLike], [null] when it was not loaded. *)
Lemma handleNullIndicator_partialField {T : Type} (enc : T -> bytes)
    (v : option T) :
  (items <- asArray (partialField enc v) ;; handleNullIndicator items)
  = Ok (option_map (fun x => RBytes (enc x)) v).
Proof. destruct v; reflexivity. Qed.

Lemma coerce_bigint (v : option Z) (hi : Z) :
  within 0 hi v ->
  coerce bytesToBigInt
    (optArg (option_map (fun n => BigInt (bytesToBigInt (bigEndian n))) v))
  = Ok (optArg v).
Proof.
  destruct v as [n |]; simpl; [| reflexivity]. intros Hn.
  rewrite bytesToBigInt_bigEndian by lia.
  destruct (Z.ltb_spec n 0); [lia |]. simpl.
  rewrite bytesToBigInt_wholeBytes by lia. reflexivity.
Qed.

Lemma coerce_number (v : option Z) :
  within 0 (MAX_SAFE_INTEGER + 1) v ->
  coerceInt (optArg (option_map Number v)) = Ok (optArg v).
Proof.
  destruct v as [n |]; cbn [within option_map optArg coerceInt toBytes];
    [| reflexivity].
  change MAX_SAFE_INTEGER with 9007199254740991 in *. intros Hn.
  destruct (Z.ltb_spec n 0); [lia |].
  destruct (Z.ltb_spec 9007199254740991 n); [lia |]. cbn [orb bind].
  rewrite bytesToInt_safe;
    rewrite bytesToBigInt_wholeBytes by lia;
    [reflexivity | change MAX_SAFE_INTEGER with 9007199254740991; lia].
Qed.

(** A number that is a safe integer is read back from its bytes. *)
Lemma bytesToInt_bigEndian (n : Z) :
  0 <= n <= MAX_SAFE_INTEGER -> bytesToInt (bigEndian n) = Ok n.
Proof.
  intros H. rewrite bytesToInt_safe; rewrite bytesToBigInt_bigEndian by lia;
    [reflexivity | lia].
Qed.

Lemma fromRawInt_field (v : option Z) :
  within 0 (MAX_SAFE_INTEGER + 1) v ->
  fromRawInt
    (element [option_map (fun x => RBytes (intToUnpaddedBytes x)) v] 0)
  = Ok (optArg (option_map Number v)).
Proof.
  destruct v as [n |]; [| reflexivity]. cbn [within]. intros H.
  cbn [option_map element nth_error fromRawInt asUint8Array bind].
  unfold intToUnpaddedBytes. rewrite bytesToInt_bigEndian by lia. reflexivity.
Qed.

Lemma coerce_bytes (v : option bytes) :
  coerce (fun b => b) (optArg (option_map Uint8Array v)) = Ok (optArg v).
Proof. destruct v; reflexivity. Qed.

Lemma orDefault_optArg {T : Type} (d : T) (v : option T) :
  orDefault d (optArg v) = v.
Proof. destruct v; reflexivity. Qed.

Lemma argIsNull_optArg {T : Type} (v : option T) :
  argIsNull (optArg v) = isNull v.
Proof. destruct v; reflexivity. Qed.

Lemma partialField_sizeBound {T : Type} (enc : T -> bytes) (v : option T) (k : nat) :
  (forall x, v = Some x -> List.length (enc x) <= k)%nat ->
  (sizeBound (partialField enc v) <= k + 28)%nat.
Proof.
  intros H. destruct v as [x |]; [| simpl; lia].
  specialize (H x eq_refl). unfold partialField.
  rewrite sizeBound_RList. cbn [sizeBoundItems sizeBound].
  change (List.length (intToUnpaddedBytes 1)) with 1%nat. lia.
Qed.

(** What the decoder reads in what [serializeWithPartialInfo] wrote, before
    the coercions. *)
Lemma createPartialAccountFromRLP_serialized (this : Account) :
  within 0 (2 ^ 256) (_nonce this) ->
  within 0 (2 ^ 256) (_balance this) ->
  hash32 (_storageRoot this) ->
  hash32 (_codeHash this) ->
  within 0 (MAX_SAFE_INTEGER + 1) (_codeSize this) ->
  within 0 (MAX_SAFE_INTEGER + 1) (_version this) ->
  createPartialAccountFromRLP (serializeWithPartialInfo this)
  = createPartialAccount
      (mkPartialAccountData
         (optArg (option_map (fun n => BigInt (bytesToBigInt (bigEndian n)))
                    (_nonce this)))
         (optArg (option_map (fun n => BigInt (bytesToBigInt (bigEndian n)))
                    (_balance this)))
         (optArg (option_map Uint8Array (_storageRoot this)))
         (optArg (option_map Uint8Array (_codeHash this)))
         (optArg (option_map Number (_codeSize this)))
         (optArg (option_map Number (_version this)))).
Proof.
  destruct this as [n b r h cs ver]. cbn [_nonce _balance _storageRoot _codeHash
                                           _codeSize _version].
  intros Hn Hb Hr Hh Hcs Hver.
  assert (Hwide : forall v, within 0 (MAX_SAFE_INTEGER + 1) v ->
                            within 0 (2 ^ 256) v).
  { intros [x |]; simpl; [| auto].
    change MAX_SAFE_INTEGER with 9007199254740991. lia. }
  unfold createPartialAccountFromRLP, serializeWithPartialInfo.
  cbn [_nonce _balance _storageRoot _codeHash _codeSize _version]. cbv zeta.
  rewrite decode_encode_sized.
  - cbn [bind mapM].
    transitivity
      (codeSize <- fromRawInt
                     (element
                        [option_map (fun x => RBytes (intToUnpaddedBytes x)) cs]
                        0) ;;
       version <- fromRawInt
                    (element
                       [option_map (fun x => RBytes (intToUnpaddedBytes x)) ver]
                       0) ;;
       createPartialAccount
         (mkPartialAccountData
            (optArg (option_map (fun n => BigInt (bytesToBigInt (bigEndian n)))
                       n))
            (optArg (option_map (fun n => BigInt (bytesToBigInt (bigEndian n)))
                       b))
            (optArg (option_map Uint8Array r))
            (optArg (option_map Uint8Array h))
            codeSize version)).
    + destruct n, b, r, h, cs, ver; reflexivity.
    + rewrite (fromRawInt_field cs Hcs). cbn [bind].
      rewrite (fromRawInt_field ver Hver). reflexivity.
  - rewrite sizeBound_RList. cbn [sizeBoundItems].
    pose proof (partialField_sizeBound bigIntToUnpaddedBytes n 32) as Pn.
    pose proof (partialField_sizeBound bigIntToUnpaddedBytes b 32) as Pb.
    pose proof (partialField_sizeBound (fun x : bytes => x) r 32) as Pr.
    pose proof (partialField_sizeBound (fun x : bytes => x) h 32) as Ph.
    pose proof (partialField_sizeBound intToUnpaddedBytes cs 32) as Pcs.
    pose proof (partialField_sizeBound intToUnpaddedBytes ver 32) as Pver.
    assert (Hnum : forall v : option Z,
               within 0 (2 ^ 256) v ->
               forall x, v = Some x -> (List.length (bigEndian x) <= 32)%nat).
    { intros v Hv x ->. apply bigEndian_32. exact Hv. }
    assert (Hhash : forall v : option bytes,
               hash32 v -> forall x, v = Some x -> (List.length x <= 32)%nat).
    { intros v Hv x ->. simpl in Hv. lia. }
    specialize (Pn (Hnum n Hn)). specialize (Pb (Hnum b Hb)).
    specialize (Pr (Hhash r Hr)). specialize (Ph (Hhash h Hh)).
    specialize (Pcs (Hnum cs (Hwide cs Hcs))).
    specialize (Pver (Hnum ver (Hwide ver Hver))).
    lia.
Qed.

(** X9.  An account that passes validation, whose code size is as the
    constructor settles it, whose numbers are in range (nonce and balance
    below [2 ^ 256], code size and version safe integers, the version not
    negative) and that has a field loaded, is read back as it is by
    [createPartialAccountFromRLP] from what [serializeWithPartialInfo]
    writes. *)
Theorem partial_round_trip (this : Account) :
  _validate this = Ok tt ->
  storedCodeSize (_codeHash this) (_codeSize this) = _codeSize this ->
  within 0 (2 ^ 256) (_nonce this) ->
  within 0 (2 ^ 256) (_balance this) ->
  within 0 (MAX_SAFE_INTEGER + 1) (_codeSize this) ->
  within 0 (MAX_SAFE_INTEGER + 1) (_version this) ->
  this <> mkAccount None None None None None None ->
  createPartialAccountFromRLP (serializeWithPartialInfo this) = Ok this.
Proof.
  intros Hv Hsettled Hn Hb Hcs Hver Hblank.
  pose proof (_validate_Ok_bounds this Hv) as [_ [_ [Hr [Hh _]]]].
  assert (Hr32 : hash32 (_storageRoot this))
    by (unfold hash32; destruct (_storageRoot this); auto).
  assert (Hh32 : hash32 (_codeHash this))
    by (unfold hash32; destruct (_codeHash this); auto).
  assert (Hwide : forall v, within 0 (MAX_SAFE_INTEGER + 1) v ->
                            within 0 (2 ^ 256) v).
  { intros [x |]; simpl; [| auto].
    change MAX_SAFE_INTEGER with 9007199254740991. lia. }
  rewrite createPartialAccountFromRLP_serialized; auto.
  unfold createPartialAccount.
  cbn [pad_nonce pad_balance pad_storageRoot pad_codeHash pad_codeSize
         pad_version].
  rewrite !argIsNull_optArg.
  destruct (isNull _ && isNull _ && isNull _ && isNull _ && isNull _ && isNull _)
    eqn:Hall.
  - exfalso. apply Hblank.
    destruct this as [n b r h cs ver]. simpl in Hall.
    destruct n, b, r, h, cs, ver; try discriminate. reflexivity.
  - rewrite (coerce_bigint _ _ Hn), (coerce_bigint _ _ Hb).
    rewrite !coerce_bytes.
    rewrite (coerce_number _ Hcs), (coerce_number _ Hver).
    cbn [bind]. rewrite constructor_unfold. rewrite !orDefault_optArg.
    rewrite Hsettled. cbv zeta.
    destruct this as [n b r h cs ver]. simpl in *. rewrite Hv. reflexivity.
Qed.

(** A contract account known by its code hash alone, and by its version. *)
Lemma partial_round_trip_witness :
  createPartialAccountFromRLP
    (serializeWithPartialInfo
       (mkAccount None None None (Some (repeat x11 32)) None (Some 1)))
  = Ok (mkAccount None None None (Some (repeat x11 32)) None (Some 1)).
Proof.
  apply partial_round_trip; try reflexivity; simpl; try lia; try discriminate.
Defined.

(** X10.  The two encodings are not taken for one another on the way in:
    [createPartialAccountFromRLP] refuses the canonical encoding of an account
    (whose items are byte strings) as invalid input. *)
Theorem canonical_is_not_partial (n b : Z) (r h : bytes) (size ver : option Z) :
  0 <= n < 2 ^ 256 ->
  0 <= b < 2 ^ 256 ->
  List.length r = 32%nat ->
  List.length h = 32%nat ->
  exists serialized,
    serialize (mkAccount (Some n) (Some b) (Some r) (Some h) size ver)
      = Ok serialized
    /\ createPartialAccountFromRLP serialized
       = Throw (EthereumJSErrorWithoutCode
                  "Invalid partial encoding. Each item must be an array").
Proof.
  intros Hn Hb Hr Hh. eexists. split; [reflexivity |].
  unfold createPartialAccountFromRLP, bigIntToUnpaddedBytes. cbn [map].
  rewrite decode_encode_sized; [reflexivity |].
  rewrite sizeBound_RList. cbn [sizeBoundItems sizeBound].
  pose proof (bigEndian_32 n Hn). pose proof (bigEndian_32 b Hb).
  rewrite Hr, Hh. lia.
Qed.

Lemma canonical_is_not_partial_witness :
  exists serialized,
    serialize (mkAccount (Some 0) (Some 0) (Some KECCAK256_RLP)
                 (Some KECCAK256_NULL) (Some 0) (Some 0))
      = Ok serialized
    /\ createPartialAccountFromRLP serialized
       = Throw (EthereumJSErrorWithoutCode
                  "Invalid partial encoding. Each item must be an array").
Proof.
  apply (canonical_is_not_partial 0 0 KECCAK256_RLP KECCAK256_NULL
           (Some 0) (Some 0)); try reflexivity; lia.
Defined.

(** ** Input that is not a list *)

(** What starts with a byte below 0xc0 decodes to a byte string, if to
    anything. *)
Lemma _decode_string_header (fuel : nat) (first : byte) (rest : bytes)
    (d : NestedUint8Array * bytes) :
  byteZ first < 192 ->
  RLP._decode fuel (first :: rest) = Ok d ->
  exists data, fst d = RBytes data.
Proof.
  intros Hfirst. destruct fuel as [| fuel]; [discriminate |].
  cbn [RLP._decode].
  destruct (Z.leb_spec (byteZ first) 127).
  { intros Hok. inversion Hok. eexists; reflexivity. }
  destruct (Z.leb_spec (byteZ first) 183).
  { destruct (if byteZ first =? 128 then Ok []
              else RLP.safeSlice (first :: rest) 1
                     (Z.to_nat (byteZ first - 127))) as [data | e];
      cbn [bind]; [| discriminate].
    destruct (_ && _); [discriminate |].
    intros Hok. inversion Hok. eexists; reflexivity. }
  destruct (Z.leb_spec (byteZ first) 191); [| lia].
  destruct (Nat.ltb _ _); [discriminate |].
  destruct (RLP.safeSlice (first :: rest) 1 _) as [lbytes | e]; cbn [bind];
    [| discriminate].
  destruct (RLP.decodeLength lbytes) as [length | e]; cbn [bind];
    [| discriminate].
  destruct (Nat.leb length 55); [discriminate |].
  destruct (RLP.safeSlice (first :: rest) _ _) as [data | e]; cbn [bind];
    [| discriminate].
  intros Hok. inversion Hok. eexists; reflexivity.
Qed.

Lemma decode_string_header (input : bytes) (x : NestedUint8Array) :
  (forall first rest, input = first :: rest -> byteZ first < 192) ->
  RLP.decode input = Ok x ->
  exists data, x = RBytes data.
Proof.
  intros Hfirst. unfold RLP.decode. destruct input as [| first rest].
  - intros Hok. inversion Hok. eexists; reflexivity.
  - specialize (Hfirst first rest eq_refl).
    destruct (RLP._decode _ (first :: rest)) as [d |] eqn:Hd; cbn [bind];
      [| discriminate].
    apply _decode_string_header in Hd; [| exact Hfirst].
    destruct Hd as [data Hdata].
    destruct (snd d); [| discriminate].
    intros Hok. inversion Hok. subst. eexists; exact Hdata.
Qed.

(** X11.  Neither factory makes an account of input that is empty or starts
    with a byte below 0xc0 (the encoding of a byte string): when the RLP
    decoder accepts the input the failure is "Invalid serialized account
    input. Must be array", and else it is the failure of the decoder. *)
Theorem factories_refuse_strings (serialized : bytes) :
  (forall first rest, serialized = first :: rest -> byteZ first < 192) ->
  createAccountFromRLP serialized
  = match RLP.decode serialized with
    | Ok _ => Throw (EthereumJSErrorWithoutCode
                       "Invalid serialized account input. Must be array")
    | Throw e => Throw e
    end
  /\ createPartialAccountFromRLP serialized
     = match RLP.decode serialized with
       | Ok _ => Throw (EthereumJSErrorWithoutCode
                          "Invalid serialized account input. Must be array")
       | Throw e => Throw e
       end.
Proof.
  intros Hfirst. unfold createAccountFromRLP, createPartialAccountFromRLP.
  destruct (RLP.decode serialized) as [x | e] eqn:Hd; cbn [bind];
    [| split; reflexivity].
  destruct (decode_string_header serialized x Hfirst Hd) as [data ->].
  split; reflexivity.
Qed.

(** The empty input, and the encoding of the byte string "abc". *)
Lemma factories_refuse_strings_witness :
  createAccountFromRLP []
  = Throw (EthereumJSErrorWithoutCode
             "Invalid serialized account input. Must be array")
  /\ createPartialAccountFromRLP [x83; x61; x62; x63]
     = Throw (EthereumJSErrorWithoutCode
                "Invalid serialized account input. Must be array").
Proof.
  split.
  - refine (proj1 (factories_refuse_strings [] _)).
    intros first rest H. discriminate.
  - refine (proj2 (factories_refuse_strings [x83; x61; x62; x63] _)).
    intros first rest H. inversion H. vm_compute. reflexivity.
Defined.

(** ** Checksums and the case of the input *)

Lemma toLowerCase_0x (body : string) :
  toLowerCase (String "0" (String "x" body))
  = String "0" (String "x" (toLowerCase body)).
Proof. reflexivity. Qed.

(** [toChecksumAddress] reads its input up to case. *)
Lemma toChecksumAddress_up_to_case (s s' : string)
    (eip1191ChainId : option BigIntLike) :
  isHexString s = true ->
  isHexString s' = true ->
  toLowerCase s = toLowerCase s' ->
  toChecksumAddress s eip1191ChainId = toChecksumAddress s' eip1191ChainId.
Proof.
  intros Hs Hs' Hlow.
  apply isHexString_inv in Hs. destruct Hs as [body [-> Hbody]].
  apply isHexString_inv in Hs'. destruct Hs' as [body' [-> Hbody']].
  rewrite !toLowerCase_0x in Hlow. inversion Hlow as [Hl].
  rewrite (toChecksumAddress_hex body _ Hbody).
  rewrite (toChecksumAddress_hex body' _ Hbody').
  rewrite Hl. reflexivity.
Qed.

Lemma isValidChecksumAddress_true (s : string)
    (eip1191ChainId : option BigIntLike) :
  isValidChecksumAddress s eip1191ChainId = Ok true ->
  isValidAddress s = true /\ toChecksumAddress s eip1191ChainId = Ok s.
Proof.
  unfold isValidChecksumAddress.
  destruct (isValidAddress s); [| discriminate].
  destruct (toChecksumAddress s eip1191ChainId) as [r | e]; cbn [bind];
    [| discriminate].
  intros H. inversion H as [E]. apply String.eqb_eq in E. subst r. auto.
Qed.

Lemma isValidAddress_isHexString (s : string) :
  isValidAddress s = true -> isHexString s = true.
Proof.
  unfold isValidAddress. rewrite andb_true_iff. intros [H _]. exact H.
Qed.

(** X12.  [toChecksumAddress] gives the same result, or the same failure, on
    two hex strings that differ in case only; so that of the spellings of one
    address at most one passes [isValidChecksumAddress] with a given chain
    id. *)
Theorem checksum_up_to_case (s s' : string)
    (eip1191ChainId : option BigIntLike) :
  toLowerCase s = toLowerCase s' ->
  (isHexString s = true -> isHexString s' = true ->
   toChecksumAddress s eip1191ChainId = toChecksumAddress s' eip1191ChainId)
  /\ (isValidChecksumAddress s eip1191ChainId = Ok true ->
      isValidChecksumAddress s' eip1191ChainId = Ok true ->
      s = s').
Proof.
  intros Hlow. split.
  - intros Hs Hs'. apply toChecksumAddress_up_to_case; assumption.
  - intros Hs Hs'.
    apply isValidChecksumAddress_true in Hs. destruct Hs as [Vs Cs].
    apply isValidChecksumAddress_true in Hs'. destruct Hs' as [Vs' Cs'].
    apply isValidAddress_isHexString in Vs, Vs'.
    rewrite (toChecksumAddress_up_to_case s s' _ Vs Vs' Hlow) in Cs.
    congruence.
Qed.

Lemma checksum_up_to_case_witness :
  toChecksumAddress "0x5AAEB6053F3E94C9B9A09F33669435E7EF1BEAED" None
  = toChecksumAddress "0x5aaeb6053f3e94c9b9a09f33669435e7ef1beaed" None.
Proof.
  apply (proj1 (checksum_up_to_case
                  "0x5AAEB6053F3E94C9B9A09F33669435E7EF1BEAED"
                  "0x5aaeb6053f3e94c9b9a09f33669435e7ef1beaed" None eq_refl));
    reflexivity.
Defined.

Lemma toChecksumAddress_Ok_inv (s : string) (eip1191ChainId : option BigIntLike)
    (r : string) :
  toChecksumAddress s eip1191ChainId = Ok r ->
  exists body hash,
    s = String "0" (String "x" body)
    /\ allHexChars body = true
    /\ r = String "0" (String "x" (caseAdjust (toLowerCase body) hash)).
Proof.
  intros H.
  assert (Hhex : isHexString s = true).
  { unfold toChecksumAddress, assertIsHexString in H.
    destruct (isHexString s); [reflexivity | discriminate]. }
  apply isHexString_inv in Hhex. destruct Hhex as [body [-> Hbody]].
  rewrite (toChecksumAddress_hex body _ Hbody) in H.
  destruct (match eip1191ChainId with
            | Some id =>
                b <- toBytes id ;;
                Ok (toString (bytesToBigInt b) ++ "0x")%string
            | None => Ok ""
            end) as [prefix | e]; cbn [bind] in H; [| discriminate].
  inversion H. eexists; eexists. repeat split. exact Hbody.
Qed.

(** X13.  What [toChecksumAddress] returns is its input up to case: a hex
    string of the same length whose lowercase is the lowercase of the input;
    and when the input is "0x" and 40 hexadecimal digits the result passes
    [isValidChecksumAddress] with the same chain id. *)
Theorem checksum_changes_case_only (s : string)
    (eip1191ChainId : option BigIntLike) (r : string) :
  toChecksumAddress s eip1191ChainId = Ok r ->
  isHexString r = true
  /\ String.length r = String.length s
  /\ toLowerCase r = toLowerCase s
  /\ (isValidAddress s = true ->
      isValidChecksumAddress r eip1191ChainId = Ok true).
Proof.
  intros H. pose proof H as Hsame.
  apply toChecksumAddress_Ok_inv in H.
  destruct H as [body [hash [-> [Hbody ->]]]].
  assert (Hr : allHexChars (caseAdjust (toLowerCase body) hash) = true)
    by (apply allHexChars_caseAdjust, allHexChars_toLowerCase, Hbody).
  split; [exact Hr |]. split; [| split].
  - cbn [String.length]. rewrite length_caseAdjust, length_toLowerCase.
    reflexivity.
  - rewrite !toLowerCase_0x, toLowerCase_caseAdjust. reflexivity.
  - intros Hvalid. unfold isValidChecksumAddress.
    assert (Hrvalid : isValidAddress
                        (String "0" (String "x"
                           (caseAdjust (toLowerCase body) hash))) = true).
    { unfold isValidAddress in *. cbn [isHexString] in *.
      rewrite Hr. rewrite Hbody in Hvalid. cbn [String.length] in *.
      rewrite length_caseAdjust, length_toLowerCase. exact Hvalid. }
    rewrite Hrvalid.
    rewrite (toChecksumAddress_up_to_case _
               (String "0" (String "x" body)) eip1191ChainId).
    + rewrite Hsame. cbn [bind]. rewrite String.eqb_refl. reflexivity.
    + exact Hr.
    + exact Hbody.
    + rewrite !toLowerCase_0x, toLowerCase_caseAdjust. reflexivity.
Qed.

Lemma checksum_changes_case_only_witness :
  isValidChecksumAddress "0x88021160c5C792225E4E5452585947470010289d"
    (Some (Number 30))
  = Ok true.
Proof.
  apply (checksum_changes_case_only
           "0x88021160C5C792225E4E5452585947470010289D" (Some (Number 30))
           "0x88021160c5C792225E4E5452585947470010289d").
  - vm_compute. reflexivity.
  - reflexivity.
Defined.

Lemma toChecksumAddress_None (body : string) :
  allHexChars body = true ->
  exists r, toChecksumAddress (String "0" (String "x" body)) None = Ok r.
Proof.
  intros H. rewrite (toChecksumAddress_hex body None H). cbn [bind].
  eexists; reflexivity.
Qed.

(** X14.  [isValidChecksumAddress] answers [false] on whatever is not "0x" and
    40 hexadecimal digits, before it looks at the chain id; and with no chain
    id it always answers. *)
Theorem isValidChecksumAddress_answers (hexAddress : string) :
  (forall eip1191ChainId,
      isValidAddress hexAddress = false ->
      isValidChecksumAddress hexAddress eip1191ChainId = Ok false)
  /\ exists answer, isValidChecksumAddress hexAddress None = Ok answer.
Proof.
  unfold isValidChecksumAddress. split.
  - intros id H. rewrite H. reflexivity.
  - destruct (isValidAddress hexAddress) eqn:Hv; [| eexists; reflexivity].
    apply isValidAddress_inv in Hv. destruct Hv as [body [-> [Hbody _]]].
    destruct (toChecksumAddress_None body Hbody) as [r ->].
    cbn [bind]. eexists; reflexivity.
Qed.

Lemma isValidChecksumAddress_answers_witness :
  isValidChecksumAddress "5aaeb6053f3e94c9b9a09f33669435e7ef1beaed"
    (Some (BigInt (-1)))
  = Ok false.
Proof.
  apply (proj1 (isValidChecksumAddress_answers
                  "5aaeb6053f3e94c9b9a09f33669435e7ef1beaed")).
  reflexivity.
Defined.

Lemma digit_case (c : ascii) :
  inRange "0" "9" c = true -> toLowerChar c = c /\ toUpperChar c = c.
Proof. destruct c as [[] [] [] [] [] [] [] []]; vm_compute; auto; discriminate. Qed.

Lemma digit_isHexChar (c : ascii) : inRange "0" "9" c = true -> isHexChar c = true.
Proof. unfold isHexChar. intros ->. reflexivity. Qed.

Lemma allDigits_allHexChars (s : string) :
  allDigits s = true -> allHexChars s = true.
Proof.
  induction s as [| c s IH]; cbn [allDigits allHexChars]; [auto |].
  rewrite !andb_true_iff. intros [Hc Hs].
  split; [apply digit_isHexChar, Hc | apply IH, Hs].
Qed.

Lemma caseAdjust_digits (body hash : string) :
  allDigits body = true -> caseAdjust (toLowerCase body) hash = body.
Proof.
  unfold toLowerCase. revert hash.
  induction body as [| c s IH]; intros hash;
    cbn [allDigits mapString caseAdjust]; [reflexivity |].
  rewrite andb_true_iff. intros [Hc Hs].
  destruct (digit_case c Hc) as [Hl Hu].
  rewrite (IH _ Hs), Hl, Hu. destruct (geNumber _ 8); reflexivity.
Qed.

(** X15.  An address written with decimal digits only is its own checksum,
    with no chain id and with any chain id that converts: the zero address is
    one. *)
Theorem digits_are_checksummed (body : string)
    (eip1191ChainId : option BigIntLike) :
  allDigits body = true ->
  toChecksumAddress (String "0" (String "x" body)) eip1191ChainId
  = match eip1191ChainId with
    | Some id => _ <- toBytes id ;; Ok (String "0" (String "x" body))
    | None => Ok (String "0" (String "x" body))
    end.
Proof.
  intros Hd.
  rewrite (toChecksumAddress_hex body _ (allDigits_allHexChars body Hd)).
  destruct eip1191ChainId as [id |]; cbn [bind].
  - destruct (toBytes id) as [b | e]; cbn [bind]; [| reflexivity].
    rewrite caseAdjust_digits by exact Hd. reflexivity.
  - rewrite caseAdjust_digits by exact Hd. reflexivity.
Qed.

Lemma digits_are_checksummed_witness :
  isZeroAddress zeroAddress = true
  /\ toChecksumAddress zeroAddress (Some (HexString "0x01")) = Ok zeroAddress.
Proof.
  split; [reflexivity |].
  apply (digits_are_checksummed "0000000000000000000000000000000000000000"
           (Some (HexString "0x01"))).
  reflexivity.
Defined.

(** ** Addresses are 20 bytes long *)

Lemma subarrayLast_keccak_length (msg : bytes) :
  List.length (subarrayLast 20 (keccak_256 msg)) = 20%nat.
Proof.
  unfold subarrayLast. rewrite length_skipn, keccak_256_length. reflexivity.
Qed.

(** X16.  [generateAddress] returns 20 bytes whatever the creator and the
    nonce bytes, also for a creator that is not 20 bytes long, which it does
    not check; and what [generateAddress2] returns is 20 bytes long. *)
Theorem generated_addresses_length (from nonce salt initCode : bytes) :
  List.length (generateAddress from nonce) = 20%nat
  /\ forall address,
       generateAddress2 from salt initCode = Ok address ->
       List.length address = 20%nat.
Proof.
  split.
  - unfold generateAddress.
    destruct (bytesToBigInt nonce =? BIGINT_0); apply subarrayLast_keccak_length.
  - intros address. unfold generateAddress2.
    destruct (negb _); [discriminate |]. destruct (negb _); [discriminate |].
    intros H. inversion H. apply subarrayLast_keccak_length.
Qed.

Lemma generated_addresses_length_witness :
  List.length
    (subarrayLast 20
       (keccak_256 (concatBytes [hexToBytes "0xff"; repeat x00 20;
                                 repeat x00 32; keccak_256 []])))
  = 20%nat.
Proof.
  apply (proj2 (generated_addresses_length (repeat x00 20) [] (repeat x00 32) [])).
  reflexivity.
Defined.

(** ** The slim body, both ways *)

Lemma length_0_nil {A : Type} (l : list A) :
  Nat.eqb (List.length l) 0 = true <-> l = [].
Proof. destruct l; simpl; split; congruence. Qed.

Lemma slim_field_back (dflt value : bytes) :
  dflt <> [] ->
  ((if Nat.eqb (List.length (if equalsBytes value dflt then [] else value)) 0
    then dflt
    else if equalsBytes value dflt then [] else value) = value
   <-> value <> []).
Proof.
  intros Hd.
  destruct (equalsBytes value dflt) eqn:E.
  - apply equalsBytes_eq in E. subst value. simpl. tauto.
  - destruct value as [| x value]; simpl.
    + split; [intros H; congruence | intros H; congruence].
    + split; [discriminate | reflexivity].
Qed.

Lemma slim_field_forth (dflt value : bytes) :
  dflt <> [] ->
  ((if equalsBytes
          (if Nat.eqb (List.length value) 0 then dflt else value) dflt
    then []
    else if Nat.eqb (List.length value) 0 then dflt else value) = value
   <-> value <> dflt).
Proof.
  intros Hd. destruct value as [| x value]; cbn [List.length Nat.eqb].
  - assert (E : equalsBytes dflt dflt = true) by (apply equalsBytes_eq; reflexivity).
    rewrite E. split; [intros _ H; apply Hd; auto | reflexivity].
  - destruct (equalsBytes (x :: value) dflt) eqn:E.
    + apply equalsBytes_eq in E. split; [discriminate | congruence].
    + apply equalsBytes_neq in E. tauto.
Qed.

Lemma pair4_eq {A B C D : Type} (a : A) (b : B) (c c' : C) (d d' : D) :
  (a, b, c, d) = (a, b, c', d') <-> c = c' /\ d = d'.
Proof. split; [intros H; inversion H; auto | intros [-> ->]; reflexivity]. Qed.

Lemma accountBodyToSlim_fields (nonce balance storageRoot codeHash : bytes) :
  accountBodyToSlim (nonce, balance, storageRoot, codeHash)
  = (nonce, balance,
     if equalsBytes storageRoot KECCAK256_RLP then [] else storageRoot,
     if equalsBytes codeHash KECCAK256_NULL then [] else codeHash).
Proof. reflexivity. Qed.

Lemma accountBodyFromSlim_fields (nonce balance storageRoot codeHash : bytes) :
  accountBodyFromSlim (nonce, balance, storageRoot, codeHash)
  = (nonce, balance,
     if Nat.eqb (List.length storageRoot) 0 then KECCAK256_RLP else storageRoot,
     if Nat.eqb (List.length codeHash) 0 then KECCAK256_NULL else codeHash).
Proof. reflexivity. Qed.

(** X17.  Where the two directions of the slim codec undo one another:
    expanding a compacted body gives the body back exactly when neither hash
    of the body is the empty byte string; compacting an expanded body gives
    it back exactly when neither hash is its default constant. *)
Theorem slim_round_trips (nonce balance storageRoot codeHash : bytes) :
  (accountBodyFromSlim (accountBodyToSlim (nonce, balance, storageRoot, codeHash))
   = (nonce, balance, storageRoot, codeHash)
   <-> storageRoot <> [] /\ codeHash <> [])
  /\ (accountBodyToSlim
        (accountBodyFromSlim (nonce, balance, storageRoot, codeHash))
      = (nonce, balance, storageRoot, codeHash)
      <-> storageRoot <> KECCAK256_RLP /\ codeHash <> KECCAK256_NULL).
Proof.
  assert (Hrlp : KECCAK256_RLP <> []) by discriminate.
  assert (Hnull : KECCAK256_NULL <> []) by discriminate.
  split.
  - rewrite accountBodyToSlim_fields, accountBodyFromSlim_fields. split.
    + intros H. apply pair4_eq in H. destruct H as [H1 H2].
      split; [apply (slim_field_back _ _ Hrlp), H1
             | apply (slim_field_back _ _ Hnull), H2].
    + intros [H1 H2]. apply pair4_eq.
      split; [apply (slim_field_back _ _ Hrlp), H1
             | apply (slim_field_back _ _ Hnull), H2].
  - rewrite accountBodyFromSlim_fields, accountBodyToSlim_fields. split.
    + intros H. apply pair4_eq in H. destruct H as [H1 H2].
      split; [apply (slim_field_forth _ _ Hrlp), H1
             | apply (slim_field_forth _ _ Hnull), H2].
    + intros [H1 H2]. apply pair4_eq.
      split; [apply (slim_field_forth _ _ Hrlp), H1
             | apply (slim_field_forth _ _ Hnull), H2].
Qed.

Lemma slim_round_trips_witness :
  accountBodyFromSlim (accountBodyToSlim ([x01], [], [], KECCAK256_NULL))
  <> ([x01], [], [], KECCAK256_NULL).
Proof.
  intros H.
  apply (proj1 (proj1 (slim_round_trips [x01] [] [] KECCAK256_NULL))) in H.
  destruct H as [H _]. apply H. reflexivity.
Defined.

(** X18.  Each direction of the slim codec does its work at once: applied
    twice it gives what it gives applied once. *)
Theorem slim_idempotent (body : AccountBodyBytes) :
  accountBodyToSlim (accountBodyToSlim body) = accountBodyToSlim body
  /\ accountBodyFromSlim (accountBodyFromSlim body) = accountBodyFromSlim body.
Proof.
  destruct body as [[[nonce balance] storageRoot] codeHash].
  split.
  - rewrite !accountBodyToSlim_fields.
    destruct (equalsBytes storageRoot KECCAK256_RLP) eqn:Er;
      destruct (equalsBytes codeHash KECCAK256_NULL) eqn:Eh;
      try rewrite Er; try rewrite Eh; reflexivity.
  - rewrite !accountBodyFromSlim_fields.
    destruct storageRoot as [| x r]; destruct codeHash as [| y h]; reflexivity.
Qed.

(** X19.  The slim body of an account is enough for its canonical encoding:
    on an account whose storage root and code hash are loaded and not empty,
    [accountBodyToRLP] of the compacted raw fields is what [serialize]
    gives. *)
Theorem slim_body_serializes (this : Account) (nonce balance storageRoot codeHash : bytes) :
  raw this = Ok [nonce; balance; storageRoot; codeHash] ->
  storageRoot <> [] ->
  codeHash <> [] ->
  serialize this
  = Ok (accountBodyToRLP
          (accountBodyToSlim (nonce, balance, storageRoot, codeHash)) true).
Proof.
  intros Hraw Hr Hh. unfold serialize. rewrite Hraw. cbn [bind map].
  unfold accountBodyToRLP.
  assert (Hrlp : KECCAK256_RLP <> []) by discriminate.
  assert (Hnull : KECCAK256_NULL <> []) by discriminate.
  assert (E : accountBodyFromSlim
                (accountBodyToSlim (nonce, balance, storageRoot, codeHash))
              = (nonce, balance, storageRoot, codeHash)).
  { rewrite accountBodyToSlim_fields, accountBodyFromSlim_fields.
    apply pair4_eq. split.
    - apply (slim_field_back _ storageRoot Hrlp). exact Hr.
    - apply (slim_field_back _ codeHash Hnull). exact Hh. }
  rewrite E. reflexivity.
Qed.

(** The account with nothing in it: its slim body holds two empty hashes. *)
Lemma slim_body_serializes_witness :
  serialize (mkAccount (Some 0) (Some 0) (Some KECCAK256_RLP)
               (Some KECCAK256_NULL) (Some 0) (Some 0))
  = Ok (accountBodyToRLP ([], [], [], []) true).
Proof.
  apply (slim_body_serializes
           (mkAccount (Some 0) (Some 0) (Some KECCAK256_RLP)
              (Some KECCAK256_NULL) (Some 0) (Some 0))
           [] [] KECCAK256_RLP KECCAK256_NULL);
    [reflexivity | discriminate | discriminate].
Defined.

(** ** Keys *)

Section KeyProperties.

Variable Point : Type.
Variable fromHex : bytes -> result Point.
Variable fromPrivateKey : bytes -> result Point.
Variable toRawBytes : Point -> bool -> bytes.

(** X20.  On a key of 64 bytes [pubToAddress] returns the last 20 bytes of
    the hash of the key, with or without [sanitize]: the curve is not asked
    whether the key is a point.  Without [sanitize] any other length is
    refused as invalid input. *)
Theorem pubToAddress_raw_key (pubKey : bytes) (sanitize : bool) :
  (List.length pubKey = 64%nat ->
   pubToAddress Point fromHex toRawBytes pubKey sanitize
     = Ok (subarrayLast 20 (keccak_256 pubKey))
   /\ List.length (subarrayLast 20 (keccak_256 pubKey)) = 20%nat)
  /\ (List.length pubKey <> 64%nat ->
      pubToAddress Point fromHex toRawBytes pubKey false
        = Throw (EthereumJSErrorWithoutCode "Expected pubKey to be of length 64")).
Proof.
  unfold pubToAddress. split.
  - intros H. apply Nat.eqb_eq in H. rewrite H, andb_false_r. cbn [bind negb].
    rewrite H. split; [reflexivity | apply subarrayLast_keccak_length].
  - intros H. apply Nat.eqb_neq in H. cbn [andb bind]. rewrite H. reflexivity.
Qed.

(** The uncompressed serialisation of a point is 65 bytes long. *)
Hypothesis toRawBytes_length :
  forall p, List.length (toRawBytes p false) = 65%nat.

Lemma sanitized_length (p : Point) :
  List.length (skipn 1 (toRawBytes p false)) = 64%nat.
Proof. rewrite length_skipn, toRawBytes_length. reflexivity. Qed.

(** X21.  With an uncompressed serialisation of 65 bytes, what
    [importPublic] returns is a key of 64 bytes that [importPublic] leaves as
    it is, and [pubToAddress] with [sanitize] is [importPublic] followed by
    [pubToAddress] without. *)
Theorem importPublic_normalises (publicKey : bytes) :
  (forall key,
      importPublic Point fromHex toRawBytes publicKey = Ok key ->
      List.length key = 64%nat
      /\ importPublic Point fromHex toRawBytes key = Ok key)
  /\ pubToAddress Point fromHex toRawBytes publicKey true
     = (key <- importPublic Point fromHex toRawBytes publicKey ;;
        pubToAddress Point fromHex toRawBytes key false).
Proof.
  unfold importPublic, pubToAddress.
  destruct (Nat.eqb (List.length publicKey) 64) eqn:E; cbn [negb andb bind].
  - split; [| rewrite E; reflexivity].
    intros key H. inversion H; subst. apply Nat.eqb_eq in E.
    split; [exact E |]. apply Nat.eqb_eq in E. rewrite E. reflexivity.
  - split.
    + intros key. destruct (fromHex publicKey) as [p | e]; cbn [bind];
        [| discriminate].
      intros H.
      assert (Hkey : key = skipn 1 (toRawBytes p false)) by congruence.
      subst key. clear H. pose proof (sanitized_length p) as L.
      split; [exact L |]. apply Nat.eqb_eq in L. rewrite L. reflexivity.
    + destruct (fromHex publicKey) as [p | e]; cbn [bind]; reflexivity.
Qed.

(** X22.  With an uncompressed serialisation of 65 bytes, a key
    [isValidPublic] accepts is a key [pubToAddress] makes an address of, with
    the same [sanitize]. *)
Theorem valid_public_has_address (publicKey : bytes) (sanitize : bool) :
  isValidPublic Point fromHex publicKey sanitize = true ->
  exists address,
    pubToAddress Point fromHex toRawBytes publicKey sanitize = Ok address
    /\ List.length address = 20%nat.
Proof.
  unfold isValidPublic, pubToAddress.
  destruct (Nat.eqb (List.length publicKey) 64) eqn:E.
  - intros _. rewrite andb_false_r. cbn [bind negb]. rewrite E.
    eexists. split; [reflexivity | apply subarrayLast_keccak_length].
  - destruct sanitize; cbn [negb andb]; [| discriminate].
    destruct (fromHex publicKey) as [p | e]; cbn [succeeds bind];
      [| discriminate].
    intros _. pose proof (sanitized_length p) as L.
    apply Nat.eqb_eq in L. rewrite L. cbn [negb].
    eexists. split; [reflexivity | apply subarrayLast_keccak_length].
Qed.

(** X24.  With an uncompressed serialisation of 65 bytes, the public key of
    a private key is 64 bytes long, and [privateToAddress] is [pubToAddress]
    of it, with or without [sanitize]: an address of 20 bytes. *)
Theorem privateToAddress_composes (privateKey publicKey : bytes)
    (sanitize : bool) :
  privateToPublic Point fromPrivateKey toRawBytes privateKey = Ok publicKey ->
  List.length publicKey = 64%nat
  /\ privateToAddress Point fromHex fromPrivateKey toRawBytes privateKey
     = pubToAddress Point fromHex toRawBytes publicKey sanitize
  /\ exists address,
       privateToAddress Point fromHex fromPrivateKey toRawBytes privateKey
         = Ok address
       /\ List.length address = 20%nat.
Proof.
  unfold privateToAddress, publicToAddress. intros H. rewrite H. cbn [bind].
  unfold privateToPublic in H.
  destruct (fromPrivateKey privateKey) as [p | e]; cbn [bind] in H;
    [| discriminate].
  assert (Hkey : publicKey = skipn 1 (toRawBytes p false)) by congruence.
  pose proof (sanitized_length p) as L. rewrite <- Hkey in L. clear H Hkey.
  split; [exact L |].
  unfold pubToAddress. apply Nat.eqb_eq in L. rewrite L. cbn [negb].
  rewrite !andb_false_r. cbn [andb bind]. rewrite L. cbn [negb].
  split; [reflexivity |].
  eexists. split; [reflexivity | apply subarrayLast_keccak_length].
Qed.

End KeyProperties.

Lemma toyToRawBytes_length (p : bytes) :
  List.length (toyToRawBytes p false) = 65%nat.
Proof.
  unfold toyToRawBytes. cbn [List.length]. rewrite length_firstn, length_app,
    repeat_length. lia.
Qed.

Lemma pubToAddress_raw_key_witness :
  pubToAddress bytes toyFromHex toyToRawBytes (repeat x01 64) true
  = Ok (subarrayLast 20 (keccak_256 (repeat x01 64))).
Proof.
  apply (proj1 (pubToAddress_raw_key bytes toyFromHex toyToRawBytes
                  (repeat x01 64) true)).
  reflexivity.
Defined.

Lemma importPublic_normalises_witness :
  importPublic bytes toyFromHex toyToRawBytes (repeat x01 64)
  = Ok (repeat x01 64).
Proof.
  apply (proj1 (importPublic_normalises bytes toyFromHex toyToRawBytes
                  toyToRawBytes_length (x04 :: repeat x01 64))
           (repeat x01 64)).
  reflexivity.
Defined.

Lemma valid_public_has_address_witness :
  exists address,
    pubToAddress bytes toyFromHex toyToRawBytes (x04 :: repeat x01 64) true
      = Ok address
    /\ List.length address = 20%nat.
Proof.
  apply (valid_public_has_address bytes toyFromHex toyToRawBytes
           toyToRawBytes_length (x04 :: repeat x01 64) true).
  reflexivity.
Defined.

Lemma privateToAddress_composes_witness :
  List.length (repeat x02 64) = 64%nat
  /\ privateToAddress bytes toyFromHex toyFromPrivateKey toyToRawBytes
       (repeat x02 32)
     = pubToAddress bytes toyFromHex toyToRawBytes (repeat x02 64) true
  /\ exists address,
       privateToAddress bytes toyFromHex toyFromPrivateKey toyToRawBytes
         (repeat x02 32)
         = Ok address
       /\ List.length address = 20%nat.
Proof.
  apply (privateToAddress_composes bytes toyFromHex toyFromPrivateKey
           toyToRawBytes toyToRawBytes_length (repeat x02 32) (repeat x02 64)
           true).
  reflexivity.
Defined.

(** ** The envelope carries its payload *)

(** X23.  In the envelope [serialize] builds, the type bytes come first and
    the rest decodes to the payload: [base] when one is given, [tx.raw()]
    otherwise. *)
Theorem envelope_payload
    (raw : EIP2718CompatibleTx -> NestedUint8Array) (txTypeBytes : Z -> bytes)
    (tx : EIP2718CompatibleTx) (base : option NestedUint8Array) :
  let payload := match base with Some b => b | None => raw tx end in
  let typeBytes := txTypeBytes (txType tx) in
  Z.of_nat (sizeBound payload) < 2 ^ 64 ->
  firstn (List.length typeBytes) (EIP2718.serialize raw txTypeBytes tx base)
  = typeBytes
  /\ RLP.decode
       (skipn (List.length typeBytes) (EIP2718.serialize raw txTypeBytes tx base))
     = Ok payload.
Proof.
  intros payload typeBytes Hsize. unfold EIP2718.serialize, concatBytes.
  cbn [List.concat]. rewrite app_nil_r. fold typeBytes. fold payload.
  rewrite firstn_length_app, skipn_length_app.
  split; [reflexivity | apply decode_encode_sized, Hsize].
Qed.

Lemma envelope_payload_witness :
  RLP.decode
    (skipn 1
       (EIP2718.serialize (fun _ => RList [RBytes [x01]; RBytes []])
          (fun type => [byteOfZ type]) (mkTx 2 None "") None))
  = Ok (RList [RBytes [x01]; RBytes []]).
Proof.
  apply (proj2 (envelope_payload (fun _ => RList [RBytes [x01]; RBytes []])
                  (fun type => [byteOfZ type]) (mkTx 2 None "") None
                  ltac:(vm_compute; reflexivity))).
Defined.
